(** * Tic Tac Toe (src/tic_tac_toe_frontend/src/App.js)

    A shallow embedding of the game logic of the [App] component: the
    winner scan [calculateWinner], the values a render derives from the
    component state, and the three event handlers [handleSquareClick]
    (with [handlePlay]), [jumpTo] and [resetGame]; and of what the
    component shows: the status line, the [Board] and the [History].

    JavaScript data is modelled as the code has it:
    - a square holds [null], ['X'] or ['O']; reading an array outside its
      bounds, or at a hole, gives [undefined];
    - an array is a list; a write past the end extends it with holes;
    - [currentMove] is a number the code never bounds-checks: a [Z];
    - an exception thrown while rendering is the [None] of [option]. *)

From stdpp Require Import base list option numbers strings pretty.

Open Scope Z_scope.

(** ** JavaScript values and arrays *)

(** The two marks, the strings ['X'] and ['O']. *)
Inductive mark := X | O.

(** What a square can read as.  Inside a list, [Undefined] stands for a
    hole of a sparse array: the program never stores [undefined] itself. *)
Inductive jsval := Undefined | Null | Str (m : mark).

Global Instance mark_eq_dec : EqDecision mark.
Proof. solve_decision. Defined.

Global Instance jsval_eq_dec : EqDecision jsval.
Proof. solve_decision. Defined.

(** [Boolean(v)]: a mark is a non-empty string, hence truthy. *)
Definition truthy (v : jsval) : bool :=
  match v with
  | Str _ => true
  | Undefined | Null => false
  end.

(** [v === w] *)
Definition strict_eq (v w : jsval) : bool := bool_decide (v = w).

(** [arr[i]] for a non-negative integer [i]. *)
Definition js_get (arr : list jsval) (i : nat) : jsval :=
  default Undefined (arr !! i).

(** [arr[i] = v]: in range the slot is overwritten, past the end the array
    grows and the slots in between are holes. *)
Definition js_set (arr : list jsval) (i : nat) (v : jsval) : list jsval :=
  if decide (i < length arr)%nat then <[i:=v]> arr
  else arr ++ replicate (i - length arr)%nat Undefined ++ [v].

(** [arr.every(Boolean)]: holes are skipped by [every]. *)
Definition every_Boolean (arr : list jsval) : bool :=
  forallb (λ v, match v with
                | Undefined => true
                | Null => false
                | Str _ => true
                end) arr.

(** [Array(n).fill(null)] *)
Definition Array_fill_null (n : nat) : list jsval := replicate n Null.

(** [arr.slice(start, end)] with the relative-index rules of the
    language: a negative bound counts from the end, every bound is
    clamped to the length. *)
Definition clamp_index (len : nat) (k : Z) : nat :=
  if decide (k < 0) then Z.to_nat (Z.max (Z.of_nat len + k) 0)
  else Z.to_nat (Z.min k (Z.of_nat len)).

Definition js_slice {A} (arr : list A) (start stop : Z) : list A :=
  let from := clamp_index (length arr) start in
  let to := clamp_index (length arr) stop in
  take (to - from)%nat (drop from arr).

(** [arr[k]] for a number [k] that may be negative or too large. *)
Definition js_index {A} (arr : list A) (k : Z) : option A :=
  if decide (0 ≤ k) then arr !! Z.to_nat k else None.

(** ** calculateWinner *)

(** The object [{ player, line }] returned for a win. *)
Record winrec := { player : jsval; line : list nat }.

Global Instance winrec_eq_dec : EqDecision winrec.
Proof. solve_decision. Defined.

Definition lines : list (nat * nat * nat) :=
  [ (0, 1, 2);
    (3, 4, 5);
    (6, 7, 8);
    (0, 3, 6);
    (1, 4, 7);
    (2, 5, 8);
    (0, 4, 8);
    (2, 4, 6) ]%nat.

(** The test of the loop body. *)
Definition line_hit (squares : list jsval) (t : nat * nat * nat) : bool :=
  let '(a, b, c) := t in
  truthy (js_get squares a)
  && strict_eq (js_get squares a) (js_get squares b)
  && strict_eq (js_get squares a) (js_get squares c).

(** The [for ... of] loop over the remaining triples. *)
Fixpoint scan_lines (squares : list jsval) (ls : list (nat * nat * nat))
  : option winrec :=
  match ls with
  | [] => None
  | (a, b, c) :: rest =>
      if line_hit squares (a, b, c)
      then Some {| player := js_get squares a; line := [a; b; c] |}
      else scan_lines squares rest
  end.

Definition calculateWinner (squares : list jsval) : option winrec :=
  scan_lines squares lines.

(** ** The component state

    [history] is an array of board arrays.  A board array is an object:
    it has an identity besides its contents, and [useMemo] compares its
    dependency by identity.  [ref] is that identity; [next_ref] is the
    allocator, the next identity not yet given out.  Objects created and
    dropped inside one render are not tracked. *)

Record array := { ref : nat; elems : list jsval }.

Global Instance array_eq_dec : EqDecision array.
Proof. solve_decision. Defined.

(** The cell React keeps for [useMemo(..., [currentSquares])]. *)
Record memo_cell := { deps : array; value : option winrec }.

Record state := {
  history : list array;
  currentMove : Z;
  isAscending : bool;
  memo : option memo_cell;
  next_ref : nat
}.

(** State of the freshly mounted component:
    [useState([Array(9).fill(null)])], [useState(0)], [useState(true)]. *)
Definition mount : state :=
  {| history := [ {| ref := 0; elems := Array_fill_null 9 |} ];
     currentMove := 0;
     isAscending := true;
     memo := None;
     next_ref := 1 |}.

(** ** What a render derives (lines 51-58 and 82-86) *)

Record view := {
  xIsNext : bool;
  currentSquares : array;
  result : option winrec;
  winner : jsval;
  winningLine : list nat;
  isDraw : bool
}.

(** [currentMove % 2 === 0]; [%] truncates towards zero, as [Z.rem]. *)
Definition xIsNext_of (move : Z) : bool := Z.rem move 2 =? 0.

(** [result?.player || null] *)
Definition winner_of (res : option winrec) : jsval :=
  match res with
  | Some r => if truthy (player r) then player r else Null
  | None => Null
  end.

(** [result?.line || []]; an array is always truthy. *)
Definition winningLine_of (res : option winrec) : list nat :=
  match res with
  | Some r => line r
  | None => []
  end.

(** [!winner && currentSquares.every(Boolean)] *)
Definition isDraw_of (w : jsval) (squares : list jsval) : bool :=
  negb (truthy w) && every_Boolean squares.

(** [useMemo(() => calculateWinner(currentSquares), [currentSquares])]:
    the stored value is reused when the dependency is the same object as
    at the render that stored it, and computed and stored otherwise. *)
Definition useMemo (cell : option memo_cell) (cur : array)
  : option winrec * memo_cell :=
  let compute :=
    let r := calculateWinner (elems cur) in
    (r, {| deps := cur; value := r |}) in
  match cell with
  | Some c => if decide (ref (deps c) = ref cur) then (value c, c) else compute
  | None => compute
  end.

(** One render of [App].  When [history[currentMove]] is [undefined],
    [calculateWinner] reads a property of [undefined] and the render
    throws: [None]. *)
Definition render (s : state) : option (view * state) :=
  cur ← js_index (history s) (currentMove s);
  let '(res, cell) := useMemo (memo s) cur in
  let w := winner_of res in
  Some ({| xIsNext := xIsNext_of (currentMove s);
           currentSquares := cur;
           result := res;
           winner := w;
           winningLine := winningLine_of res;
           isDraw := isDraw_of w (elems cur) |},
        {| history := history s;
           currentMove := currentMove s;
           isAscending := isAscending s;
           memo := Some cell;
           next_ref := next_ref s |}).

(** The three statuses the component tells apart (the [status] text and
    the highlighted cells): a winner with its line, a draw, or a game
    still in progress. *)
Inductive TerminalResult :=
  | NoResult
  | Win (p : mark) (l : list nat)
  | Draw.

Global Instance TerminalResult_eq_dec : EqDecision TerminalResult.
Proof. solve_decision. Defined.

Definition status_of (w : jsval) (wl : list nat) (draw : bool)
  : TerminalResult :=
  match w with
  | Str p => Win p wl
  | Undefined | Null => if draw then Draw else NoResult
  end.

Definition status (v : view) : TerminalResult :=
  status_of (winner v) (winningLine v) (isDraw v).

(** The status as a function of a board alone: the expressions of the
    render with [calculateWinner] applied directly. *)
Definition EvaluateTerminal (squares : list jsval) : TerminalResult :=
  let res := calculateWinner squares in
  let w := winner_of res in
  status_of w (winningLine_of res) (isDraw_of w squares).

(** ** Event handlers *)

Definition handlePlay (s : state) (nextSquares : array) (indexPlayed : nat)
  : state :=
  let nextHistory :=
    js_slice (history s) 0 (currentMove s + 1) ++ [nextSquares] in
  {| history := nextHistory;
     currentMove := Z.of_nat (length nextHistory) - 1;
     isAscending := isAscending s;
     memo := memo s;
     next_ref := next_ref s |}.

(** The mark written by a click. *)
Definition turn (x : bool) : mark := if x then X else O.

(** [handleSquareClick] in the closure of the render that gave [v].
    [currentSquares.slice()] is a new object with the same contents. *)
Definition handleSquareClick (v : view) (s : state) (index : nat) : state :=
  if truthy (winner v) || truthy (js_get (elems (currentSquares v)) index)
  then s
  else
    let copy := {| ref := next_ref s; elems := elems (currentSquares v) |} in
    let nextSquares :=
      {| ref := ref copy;
         elems := js_set (elems copy) index (Str (turn (xIsNext v))) |} in
    handlePlay {| history := history s;
                  currentMove := currentMove s;
                  isAscending := isAscending s;
                  memo := memo s;
                  next_ref := S (next_ref s) |}
               nextSquares index.

Definition jumpTo (s : state) (move : Z) : state :=
  {| history := history s;
     currentMove := move;
     isAscending := isAscending s;
     memo := memo s;
     next_ref := next_ref s |}.

Definition resetGame (s : state) : state :=
  {| history := [ {| ref := next_ref s; elems := Array_fill_null 9 |} ];
     currentMove := 0;
     isAscending := isAscending s;
     memo := memo s;
     next_ref := S (next_ref s) |}.

(** [setIsAscending((v) => !v)] *)
Definition toggleOrder (s : state) : state :=
  {| history := history s;
     currentMove := currentMove s;
     isAscending := negb (isAscending s);
     memo := memo s;
     next_ref := next_ref s |}.

(** ** The component as a transition system

    An event is handled by the closures of the latest render; the state
    they leave is rendered before the next event. *)

Inductive event :=
  | SquareClick (index : nat)
  | HistoryClick (move : Z)
  | RestartClick
  | ToggleClick.

Definition handle (v : view) (s : state) (e : event) : state :=
  match e with
  | SquareClick index => handleSquareClick v s index
  | HistoryClick move => jumpTo s move
  | RestartClick => resetGame s
  | ToggleClick => toggleOrder s
  end.

Definition step (s : state) (e : event) : option state :=
  '(v, s') ← render s;
  Some (handle v s' e).

Fixpoint run (s : state) (es : list event) : option state :=
  match es with
  | [] => Some s
  | e :: es' => s' ← step s e; run s' es'
  end.

(** The board shown: [history[currentMove]], when there is one. *)
Definition active (s : state) : option (list jsval) :=
  elems <$> js_index (history s) (currentMove s).

(** The boards of the history, without their identities. *)
Definition boards (s : state) : list (list jsval) := elems <$> history s.

(** ** Vocabulary of the properties *)

(** The three cells of a triple hold one and the same mark. *)
Definition complete (squares : list jsval) (t : nat * nat * nat) : Prop :=
  ∃ p, squares !! t.1.1 = Some (Str p)
       ∧ squares !! t.1.2 = Some (Str p)
       ∧ squares !! t.2 = Some (Str p).

(** The triples of the 3x3 grid, cells numbered row by row. *)
Definition row (r : nat) : nat * nat * nat :=
  (3 * r, 3 * r + 1, 3 * r + 2)%nat.
Definition column (c : nat) : nat * nat * nat :=
  (c, c + 3, c + 6)%nat.
Definition diagonal_down : nat * nat * nat := (0, 4, 8)%nat.
Definition diagonal_up : nat * nat * nat := (2, 4, 6)%nat.

(** A cell that holds a mark. *)
Definition occupied (v : jsval) : Prop := ∃ p, v = Str p.

(** A state some sequence of events leads to from the mounted
    component. *)
Definition reachable (s : state) : Prop := ∃ es, run mount es = Some s.

(** The clicks the rendered board can produce: it has nine buttons. *)
Definition board_event (e : event) : Prop :=
  match e with
  | SquareClick index => (index < 9)%nat
  | HistoryClick _ | RestartClick | ToggleClick => True
  end.

(** [b'] differs from [b] in at most one cell, and that cell went from
    empty to a mark. *)
Definition one_more_mark (b b' : list jsval) : Prop :=
  ∃ i, (∀ j, j ≠ i → b' !! j = b !! j)
       ∧ (b' !! i = b !! i
          ∨ (b !! i = Some Null ∧ ∃ p, b' !! i = Some (Str p))).

(** The invariant of the history. *)
Definition history_inv (h : list (list jsval)) : Prop :=
  h !! 0%nat = Some (Array_fill_null 9)
  ∧ Forall (λ b, length b = 9%nat) h
  ∧ ∀ n b b', h !! n = Some b → h !! S n = Some b' → one_more_mark b b'.

(** Identities are coherent: the arrays the state holds (in the history
    or as the dependency of the memo cell) were all given out by the
    allocator, two of them with one identity are one array, and the memo
    cell holds what [calculateWinner] gives on its dependency. *)
Definition held (s : state) : list array :=
  history s ++ match memo s with Some c => [deps c] | None => [] end.

Definition heap_inv (s : state) : Prop :=
  (∀ a, a ∈ held s → (ref a < next_ref s)%nat)
  ∧ (∀ a b, a ∈ held s → b ∈ held s → ref a = ref b → a = b)
  ∧ (∀ c, memo s = Some c → value c = calculateWinner (elems (deps c))).

(** The first nine cells of a board exist and are no holes. *)
Definition solid (b : list jsval) : Prop :=
  ∀ i, (i < 9)%nat → ∃ v, b !! i = Some v ∧ v ≠ Undefined.

(** Snapshot [n+1] was written from snapshot [n] by the player whose
    turn move [n] is, on a cell that read as falsy. *)
Definition written (n : nat) (b b' : list jsval) : Prop :=
  ∃ i, truthy (js_get b i) = false
       ∧ b' = js_set b i (Str (turn (xIsNext_of (Z.of_nat n)))).

Definition chain (h : list (list jsval)) : Prop :=
  ∀ n b b', h !! n = Some b → h !! S n = Some b' → written n b b'.

(** What play leaves in the history, with or without jumps: it starts at
    the empty board, the first nine cells of every snapshot exist, and
    every snapshot was written from the one before it. *)
Definition play_inv (h : list (list jsval)) : Prop :=
  h !! 0%nat = Some (Array_fill_null 9)
  ∧ Forall solid h
  ∧ chain h.

Definition game_inv (s : state) : Prop :=
  heap_inv s ∧ play_inv (boards s).

(** Every snapshot has nine cells. *)
Definition nine_cells (s : state) : Prop :=
  Forall (λ b, length b = 9%nat) (boards s).

(** The current move is the last snapshot. *)
Definition at_tip (s : state) : Prop :=
  currentMove s = Z.of_nat (length (history s)) - 1
  ∧ (1 ≤ length (history s))%nat.

(** ** What the component shows (lines 82-141)

    The elements a render returns, as the props that matter: texts, class
    names, the [disabled] flag, and for a button the call its [onClick]
    makes. *)

(** A mark as the text it is. *)
Definition mark_text (p : mark) : string :=
  match p with
  | X => "X"
  | O => "O"
  end.

(** A value spliced into a template literal. *)
Definition js_text (v : jsval) : string :=
  match v with
  | Undefined => "undefined"
  | Null => "null"
  | Str p => mark_text p
  end.

(** The [status] constant of [App] (lines 82-86).  The name [status] is
    taken by the three-valued reading above. *)
Definition status_text (v : view) : string :=
  if truthy (winner v) then "Winner: " +:+ js_text (winner v)
  else if isDraw v then "Draw"
  else "Next player: " +:+ mark_text (turn (xIsNext v)).

(** The class of the status badge (line 100). *)
Definition status_badge (v : view) : string :=
  "status-badge "
  +:+ (if truthy (winner v) then "win" else if isDraw v then "draw" else "next").

(** *** Board (lines 145-173) *)

(** One [<button>] of the grid, with the constants [renderSquare]
    computes for it. *)
Record square := {
  sq_key : nat;
  sq_value : jsval;
  sq_isWinnerCell : bool;
  sq_isActiveTurn : bool;
  sq_ariaLabel : string;
  sq_className : string;
  sq_onClick : nat;
  sq_disabled : bool
}.

Definition renderSquare (squares : list jsval) (winningLine : list nat)
    (i : nat) : square :=
  let value := js_get squares i in
  let isWinnerCell := bool_decide (i ∈ winningLine) in
  let isActiveTurn :=
    negb (truthy value) && (length winningLine =? 0)%nat in
  let ariaLabel :=
    "Cell " +:+ pretty (i + 1)%nat +:+ ", "
    +:+ (if truthy value then js_text value else "empty") in
  {| sq_key := i;
     sq_value := value;
     sq_isWinnerCell := isWinnerCell;
     sq_isActiveTurn := isActiveTurn;
     sq_ariaLabel := ariaLabel;
     sq_className :=
       "square "
       +:+ (if strict_eq value (Str X) then "x"
            else if strict_eq value (Str O) then "o" else "")
       +:+ " " +:+ (if isWinnerCell then "winner" else "")
       +:+ " " +:+ (if isActiveTurn then "active" else "");
     sq_onClick := i;
     sq_disabled := truthy value || negb (length winningLine =? 0)%nat |}.

Record grid := { grid_ariaLabel : string; grid_squares : list square }.

Definition Board (squares : list jsval) (winningLine : list nat)
    (xIsNext : bool) : grid :=
  {| grid_ariaLabel :=
       "Tic Tac Toe board. " +:+ mark_text (turn xIsNext) +:+ " to move.";
     grid_squares := renderSquare squares winningLine <$> seq 0 9 |}.

(** *** History (lines 176-197) *)

(** One [<li>] of the move list: its key and its button. *)
Record history_button := {
  hb_key : nat;
  hb_className : string;
  hb_onClick : Z;
  hb_ariaCurrent : option string;
  hb_description : string
}.

Definition History (history : list array) (currentMove : Z)
    (isAscending : bool) : list history_button :=
  let items :=
    imap (λ move _,
            let description :=
              if decide (move = 0%nat) then "Go to game start"
              else "Go to move #" +:+ pretty move in
            let isCurrent := bool_decide (Z.of_nat move = currentMove) in
            {| hb_key := move;
               hb_className :=
                 "history-btn " +:+ (if isCurrent then "current" else "");
               hb_onClick := Z.of_nat move;
               hb_ariaCurrent := if isCurrent then Some "step" else None;
               hb_description := description |})
         history in
  if isAscending then items else reverse items.

(** *** The whole screen *)

Record screen := {
  scr_status : string;
  scr_badge : string;
  scr_board : grid;
  scr_toggle : string;
  scr_history : list history_button
}.

(** The element tree [App] returns, for the values [v] the render derived
    from the state [s]. *)
Definition App_screen (v : view) (s : state) : screen :=
  {| scr_status := status_text v;
     scr_badge := status_badge v;
     scr_board :=
       Board (elems (currentSquares v)) (winningLine v) (xIsNext v);
     scr_toggle := if isAscending s then "Ascending" else "Descending";
     scr_history := History (history s) (currentMove s) (isAscending s) |}.

(** The events a screen can send: a click on a square that is not
    disabled, on a button of the move list, on the restart button or on
    the order toggle. *)
Definition offered (sc : screen) (e : event) : Prop :=
  match e with
  | SquareClick index =>
      ∃ b, b ∈ grid_squares (scr_board sc)
           ∧ sq_disabled b = false ∧ sq_onClick b = index
  | HistoryClick move =>
      ∃ h, h ∈ scr_history sc ∧ hb_onClick h = move
  | RestartClick | ToggleClick => True
  end.

(** The states a user can bring the mounted component to. *)
Inductive ui_reachable : state → Prop :=
  | ui_mount : ui_reachable mount
  | ui_event (s s1 : state) (v : view) (e : event) :
      ui_reachable s →
      render s = Some (v, s1) →
      offered (App_screen v s1) e →
      ui_reachable (handle v s1 e).

(** ** Vocabulary of further properties *)

(** How many cells hold the mark [p]. *)
Definition count_mark (p : mark) (b : list jsval) : nat :=
  length (filter (λ v, v = Str p) b).

(** The other player. *)
Definition other (p : mark) : mark :=
  match p with
  | X => O
  | O => X
  end.

Definition swap_marks (v : jsval) : jsval :=
  match v with
  | Str p => Str (other p)
  | Undefined | Null => v
  end.

Definition swap_winrec (r : winrec) : winrec :=
  {| player := swap_marks (player r); line := line r |}.

(** Only the last snapshot of a history may hold a complete triple. *)
Definition no_early_win (h : list (list jsval)) : Prop :=
  ∀ n b, h !! n = Some b → (S n < length h)%nat → calculateWinner b = None.

(** What holds of every state reached from the mounted component through
    the nine squares, the move list, restart and toggle. *)
Definition legal (s : state) : Prop :=
  heap_inv s
  ∧ play_inv (boards s)
  ∧ nine_cells s
  ∧ no_early_win (boards s).

(** ** Three games

    The winning scenario and the drawn scenario of the specification, and
    a game of five moves that nobody has won yet. *)

Definition clicks (indices : list nat) : list event :=
  SquareClick <$> indices.

Definition top_row_game : list event := clicks [0; 4; 1; 7; 2]%nat.

Definition drawn_game : list event :=
  clicks [0; 1; 2; 4; 3; 5; 7; 6; 8]%nat.

Definition five_moves_game : list event := clicks [0; 4; 1; 7; 8]%nat.

(** The board the first game ends on, and its board after move 2. *)
Definition top_row_board : list jsval :=
  [Str X; Str X; Str X; Null; Str O; Null; Null; Str O; Null].

Definition second_move_board : list jsval :=
  [Str X; Null; Null; Null; Str O; Null; Null; Null; Null].

(** A board with the top row and the left column complete at once; only
    an injected board can look like this. *)
Definition double_line_board : list jsval :=
  [Str X; Str X; Str X; Str X; Str O; Str O; Str X; Str O; Null].

(** A full board without a complete triple, and a board barely begun. *)
Definition full_board : list jsval :=
  [Str X; Str O; Str X; Str X; Str O; Str O; Str O; Str X; Str X].

Definition begun_board : list jsval :=
  [Str X; Str O; Null; Null; Null; Null; Null; Null; Null].

(** The states these games end in. *)
Definition top_row_state : state :=
  Eval vm_compute in default mount (run mount top_row_game).

Definition drawn_state : state :=
  Eval vm_compute in default mount (run mount drawn_game).

Definition five_moves_state : state :=
  Eval vm_compute in default mount (run mount five_moves_game).

(** The state after one click on the centre square. *)
Definition centre_state : state :=
  Eval vm_compute in default mount (run mount (clicks [4]%nat)).

(** Move 2 of the five-move game selected in the history list. *)
Definition rewound_state : state :=
  Eval vm_compute in
    default mount (run mount (five_moves_game ++ [HistoryClick 2])).

(** * Properties *)

(** ** Reading arrays *)

Lemma js_get_lookup (arr : list jsval) (i : nat) (v : jsval) :
  arr !! i = Some v → js_get arr i = v.
Proof. unfold js_get. by intros ->. Qed.

Lemma js_get_Str (arr : list jsval) (i : nat) (p : mark) :
  js_get arr i = Str p ↔ arr !! i = Some (Str p).
Proof.
  unfold js_get. destruct (arr !! i) as [v|]; simpl; split; congruence.
Qed.

Lemma truthy_Str (v : jsval) : truthy v = true ↔ occupied v.
Proof.
  split.
  - destruct v; try discriminate. intros _. by eexists.
  - by intros [p ->].
Qed.

Lemma truthy_false (v : jsval) : truthy v = false ↔ ¬ occupied v.
Proof.
  rewrite <- truthy_Str. by destruct (truthy v).
Qed.

(** ** The winner scan *)

Lemma line_hit_complete (squares : list jsval) (t : nat * nat * nat) :
  line_hit squares t = true ↔ complete squares t.
Proof.
  destruct t as [[a b] c]. unfold line_hit, complete, strict_eq. simpl.
  rewrite !andb_true_iff, !bool_decide_eq_true, truthy_Str. split.
  - intros [[[p Ha] Hb] Hc]. exists p. rewrite Ha in Hb, Hc.
    rewrite <- !js_get_Str. by rewrite Ha, <- Hb, <- Hc.
  - intros (p & Ha & Hb & Hc). apply js_get_Str in Ha, Hb, Hc.
    rewrite Ha, Hb, Hc. split_and!; [by exists p|done|done].
Qed.

Lemma line_hit_not_complete (squares : list jsval) (t : nat * nat * nat) :
  line_hit squares t = false ↔ ¬ complete squares t.
Proof.
  rewrite <- line_hit_complete. by destruct (line_hit squares t).
Qed.

Lemma scan_lines_cons (squares : list jsval) (a b c : nat)
    (rest : list (nat * nat * nat)) :
  scan_lines squares ((a, b, c) :: rest)
  = if line_hit squares (a, b, c)
    then Some {| player := js_get squares a; line := [a; b; c] |}
    else scan_lines squares rest.
Proof. reflexivity. Qed.

(** The loop stops at the first complete triple of the list it walks. *)
Lemma scan_lines_first (squares : list jsval) (ls : list (nat * nat * nat)) :
  (∃ t, t ∈ ls ∧ complete squares t) →
  ∃ pre a b c post p,
    ls = pre ++ (a, b, c) :: post
    ∧ Forall (λ t, ¬ complete squares t) pre
    ∧ squares !! a = Some (Str p)
    ∧ squares !! b = Some (Str p)
    ∧ squares !! c = Some (Str p)
    ∧ scan_lines squares ls = Some {| player := Str p; line := [a; b; c] |}.
Proof.
  induction ls as [|[[a b] c] rest IH]; intros (t & Hin & Hc).
  - by apply elem_of_nil in Hin.
  - rewrite scan_lines_cons. destruct (line_hit squares (a, b, c)) eqn:Hhit.
    + apply line_hit_complete in Hhit as (p & Ha & Hb & Hcc).
      cbn [fst snd] in Ha, Hb, Hcc.
      exists [], a, b, c, rest, p. split_and!; try done.
      by rewrite (js_get_lookup _ _ _ Ha).
    + apply line_hit_not_complete in Hhit.
      apply elem_of_cons in Hin as [->|Hin]; [done|].
      destruct IH as (pre & a' & b' & c' & post & p & -> & Hpre & H); [eauto|].
      exists ((a, b, c) :: pre), a', b', c', post, p.
      split_and!; try apply H; [done|by constructor].
Qed.

Lemma scan_lines_none (squares : list jsval) (ls : list (nat * nat * nat)) :
  scan_lines squares ls = None ↔ ∀ t, t ∈ ls → ¬ complete squares t.
Proof.
  induction ls as [|[[a b] c] rest IH]; [|rewrite scan_lines_cons].
  - split; [|done]. intros _ t Hin. by apply elem_of_nil in Hin.
  - destruct (line_hit squares (a, b, c)) eqn:Hhit.
    + split; [done|]. intros H. apply line_hit_complete in Hhit.
      destruct (H (a, b, c)); [by left|done].
    + apply line_hit_not_complete in Hhit. rewrite IH. split.
      * intros H t Hin. apply elem_of_cons in Hin as [->|Hin]; auto.
      * intros H t Hin. apply H. by right.
Qed.

(** A win record always carries a mark. *)
Lemma scan_lines_player (squares : list jsval) (ls : list (nat * nat * nat))
    (r : winrec) :
  scan_lines squares ls = Some r → occupied (player r).
Proof.
  induction ls as [|[[a b] c] rest IH]; [done|rewrite scan_lines_cons].
  destruct (line_hit squares (a, b, c)) eqn:Hhit; [|done].
  intros [= <-]. simpl. apply line_hit_complete in Hhit as (p & Ha & _).
  exists p. by apply js_get_Str.
Qed.

Lemma every_Boolean_false (squares : list jsval) (i : nat) :
  squares !! i = Some Null → every_Boolean squares = false.
Proof.
  revert i. induction squares as [|v rest IH]; intros [|i] H; try done.
  - by injection H as ->.
  - simpl in *. rewrite (IH i H). apply andb_false_r.
Qed.

Lemma every_Boolean_occupied (squares : list jsval) :
  Forall occupied squares → every_Boolean squares = true.
Proof.
  induction 1 as [|v rest [p ->] _ IH]; [done|]. simpl. by rewrite IH.
Qed.

Lemma EvaluateTerminal_no_line (squares : list jsval) :
  calculateWinner squares = None →
  EvaluateTerminal squares = if every_Boolean squares then Draw else NoResult.
Proof. unfold EvaluateTerminal. by intros ->. Qed.

Lemma EvaluateTerminal_line (squares : list jsval) p l :
  calculateWinner squares = Some {| player := Str p; line := l |} →
  EvaluateTerminal squares = Win p l.
Proof. unfold EvaluateTerminal. by intros ->. Qed.

(** [C1] [calculateWinner] walks the eight triples in the order: the three
    rows from the top, the three columns from the left, the diagonal from
    the top-left corner, the diagonal from the top-right corner.  On a
    board where some triple holds three equal marks it returns the first
    such triple of that order with the mark on it, and the status is
    [Win] with that mark and those three indices. *)
Theorem calculateWinner_first_line (squares : list jsval)
    (t : nat * nat * nat) :
  t ∈ lines →
  complete squares t →
  lines = (row <$> [0; 1; 2]%nat) ++ (column <$> [0; 1; 2]%nat)
          ++ [diagonal_down; diagonal_up]
  ∧ ∃ pre a b c post p,
      lines = pre ++ (a, b, c) :: post
      ∧ Forall (λ t', ¬ complete squares t') pre
      ∧ squares !! a = Some (Str p)
      ∧ squares !! b = Some (Str p)
      ∧ squares !! c = Some (Str p)
      ∧ calculateWinner squares
        = Some {| player := Str p; line := [a; b; c] |}
      ∧ EvaluateTerminal squares = Win p [a; b; c].
Proof.
  intros Hin Hc. split; [reflexivity|].
  destruct (scan_lines_first squares lines) as
    (pre & a & b & c & post & p & Hl & Hpre & Ha & Hb & Hcc & Hscan); [eauto|].
  exists pre, a, b, c, post, p. split_and!; try done.
  by apply EvaluateTerminal_line.
Qed.

(** On a board won on the left column and on the top row at once, the row
    is reported: it comes first. *)
Lemma calculateWinner_first_line_witness :
  calculateWinner double_line_board
  = Some {| player := Str X; line := [0; 1; 2]%nat |}
  ∧ lines = (row <$> [0; 1; 2]%nat) ++ (column <$> [0; 1; 2]%nat)
            ++ [diagonal_down; diagonal_up]
  ∧ ∃ pre a b c post p,
      lines = pre ++ (a, b, c) :: post
      ∧ Forall (λ t', ¬ complete double_line_board t') pre
      ∧ double_line_board !! a = Some (Str p)
      ∧ double_line_board !! b = Some (Str p)
      ∧ double_line_board !! c = Some (Str p)
      ∧ calculateWinner double_line_board
        = Some {| player := Str p; line := [a; b; c] |}
      ∧ EvaluateTerminal double_line_board = Win p [a; b; c].
Proof.
  split; [reflexivity|].
  apply (calculateWinner_first_line double_line_board (0, 3, 6)%nat).
  - unfold lines. repeat constructor.
  - exists X. by split_and!.
Defined.

(** [C2] On a board with no complete triple the status is [Draw] when the
    board has nine cells and each holds a mark, and [NoResult] when some
    cell is empty. *)
Theorem EvaluateTerminal_no_complete_line (squares : list jsval) :
  (∀ t, t ∈ lines → ¬ complete squares t) →
  (length squares = 9%nat → Forall occupied squares →
   EvaluateTerminal squares = Draw)
  ∧ ((∃ i, squares !! i = Some Null) →
     EvaluateTerminal squares = NoResult).
Proof.
  intros Hno. apply scan_lines_none in Hno.
  rewrite (EvaluateTerminal_no_line _ Hno). split.
  - intros _ Hocc. by rewrite every_Boolean_occupied.
  - intros [i Hi]. by rewrite (every_Boolean_false _ _ Hi).
Qed.

Lemma EvaluateTerminal_no_complete_line_witness :
  EvaluateTerminal full_board = Draw
  ∧ EvaluateTerminal begun_board = NoResult.
Proof.
  split.
  - apply EvaluateTerminal_no_complete_line.
    + apply scan_lines_none. reflexivity.
    + reflexivity.
    + repeat constructor; by eexists.
  - apply EvaluateTerminal_no_complete_line.
    + apply scan_lines_none. reflexivity.
    + by exists 2%nat.
Defined.

(** ** Indexing and slicing *)

Lemma js_index_Some {A} (arr : list A) (k : Z) (a : A) :
  js_index arr k = Some a ↔ 0 ≤ k ∧ arr !! Z.to_nat k = Some a.
Proof.
  unfold js_index. destruct (decide (0 ≤ k)) as [Hk|Hk].
  - split; [by intros ->|by intros [_ ->]].
  - split; [done|]. by intros [? _].
Qed.

Lemma js_index_in_range {A} (arr : list A) (k : Z) :
  is_Some (js_index arr k) ↔ 0 ≤ k < Z.of_nat (length arr).
Proof.
  unfold js_index. case_decide.
  - rewrite lookup_lt_is_Some. lia.
  - split; [by intros [? ?]|lia].
Qed.

Lemma js_index_None {A} (arr : list A) (k : Z) :
  js_index arr k = None ↔ ¬ (0 ≤ k < Z.of_nat (length arr)).
Proof.
  rewrite <- js_index_in_range, eq_None_not_Some. done.
Qed.

Lemma js_index_elem_of {A} (arr : list A) (k : Z) (a : A) :
  js_index arr k = Some a → a ∈ arr.
Proof.
  intros [_ H]%js_index_Some. by eapply list_elem_of_lookup_2.
Qed.

(** [arr.slice(0, k + 1)] for a valid index [k] keeps the first [k + 1]
    elements. *)
Lemma js_slice_prefix {A} (arr : list A) (k : Z) :
  0 ≤ k →
  js_slice arr 0 (k + 1) = take (S (Z.to_nat k)) arr.
Proof.
  intros Hk. unfold js_slice, clamp_index.
  rewrite !decide_False by lia.
  replace (Z.to_nat (0 `min` Z.of_nat (length arr))) with 0%nat by lia.
  rewrite drop_0, Nat.sub_0_r.
  destruct (decide (k + 1 ≤ Z.of_nat (length arr))).
  - f_equal. lia.
  - rewrite !take_ge; [done|lia|lia].
Qed.

(** ** One render *)

Lemma render_Some (s s' : state) (v : view) :
  render s = Some (v, s') →
  ∃ cur cell,
    js_index (history s) (currentMove s) = Some cur
    ∧ useMemo (memo s) cur = (result v, cell)
    ∧ currentSquares v = cur
    ∧ xIsNext v = xIsNext_of (currentMove s)
    ∧ winner v = winner_of (result v)
    ∧ winningLine v = winningLine_of (result v)
    ∧ isDraw v = isDraw_of (winner v) (elems cur)
    ∧ s' = {| history := history s;
              currentMove := currentMove s;
              isAscending := isAscending s;
              memo := Some cell;
              next_ref := next_ref s |}.
Proof.
  unfold render. destruct (js_index _ _) as [cur|] eqn:Hcur; [|done]. simpl.
  destruct (useMemo _ _) as [res cell] eqn:Hmemo. intros [= <- <-].
  exists cur, cell. by split_and!.
Qed.

Lemma render_is_Some (s : state) :
  is_Some (render s) ↔ 0 ≤ currentMove s < Z.of_nat (length (history s)).
Proof.
  rewrite <- js_index_in_range. unfold render.
  destruct (js_index _ _) as [cur|]; simpl.
  - destruct (useMemo _ _). split; intros _; by eexists.
  - split; by intros [? ?].
Qed.

Lemma status_EvaluateTerminal (v : view) (b : list jsval) :
  result v = calculateWinner b →
  winner v = winner_of (result v) →
  winningLine v = winningLine_of (result v) →
  isDraw v = isDraw_of (winner v) b →
  status v = EvaluateTerminal b.
Proof.
  unfold status, EvaluateTerminal. intros <- Hw -> ->. by rewrite Hw.
Qed.

(** ** Identities and the memo cell *)

Lemma elem_of_held (s : state) (a : array) :
  a ∈ held s ↔ a ∈ history s ∨ ∃ c, memo s = Some c ∧ a = deps c.
Proof.
  unfold held. rewrite elem_of_app. destruct (memo s) as [c|].
  - rewrite list_elem_of_singleton. split.
    + intros [?| ->]; [by left|right; by exists c].
    + intros [?|(c' & [= <-] & ->)]; [by left|by right].
  - rewrite elem_of_nil. split.
    + intros [?|[]]. by left.
    + intros [?|(c' & ? & _)]; [by left|done].
Qed.

(** A handler that keeps arrays already held, or adds one array with a
    fresh identity, keeps the identities coherent. *)
Lemma heap_inv_extend (s s' : state) (new : array) :
  heap_inv s →
  (next_ref s ≤ next_ref s')%nat →
  (∀ a, a ∈ held s' →
        a ∈ held s ∨ (a = new ∧ next_ref s ≤ ref new < next_ref s')%nat) →
  (∀ c, memo s' = Some c → value c = calculateWinner (elems (deps c))) →
  heap_inv s'.
Proof.
  intros (Hlt & Hinj & _) Hle Hsub Hval. split_and!; [| |done].
  - intros a [Ha|[-> ?]]%Hsub; [|lia]. specialize (Hlt a Ha). lia.
  - intros a b [Ha|[-> ?]]%Hsub [Hb|[-> ?]]%Hsub Href; [by apply Hinj| | |done].
    + specialize (Hlt a Ha). lia.
    + specialize (Hlt b Hb). lia.
Qed.

Lemma heap_inv_mount : heap_inv mount.
Proof.
  split_and!; [| |done].
  - intros a [Ha|(c & Hc & _)]%elem_of_held; [|done].
    apply list_elem_of_singleton in Ha as ->. simpl. lia.
  - intros a b [Ha|(c & Hc & _)]%elem_of_held [Hb|(c' & Hc' & _)]%elem_of_held;
      try done.
    apply list_elem_of_singleton in Ha as ->.
    by apply list_elem_of_singleton in Hb as ->.
Qed.

(** Under coherent identities the memo is transparent: a render reads
    what [calculateWinner] gives on the board it shows. *)
Lemma useMemo_coherent (s : state) (cur : array) res cell :
  heap_inv s →
  cur ∈ history s →
  useMemo (memo s) cur = (res, cell) →
  res = calculateWinner (elems cur)
  ∧ value cell = calculateWinner (elems (deps cell))
  ∧ deps cell ∈ held s.
Proof.
  intros (_ & Hinj & Hval) Hcur. unfold useMemo.
  assert (cur ∈ held s) as Hheld by (apply elem_of_held; by left).
  destruct (memo s) as [c|] eqn:Hm.
  - case_decide as Href.
    + intros [= <- <-].
      assert (deps c ∈ held s) as Hc by (apply elem_of_held; right; eauto).
      rewrite <- (Hinj _ _ Hc Hheld Href). eauto.
    + intros [= <- <-]. simpl. eauto.
  - intros [= <- <-]. simpl. eauto.
Qed.

Lemma render_heap_inv (s s' : state) (v : view) :
  heap_inv s →
  render s = Some (v, s') →
  heap_inv s' ∧ result v = calculateWinner (elems (currentSquares v)).
Proof.
  intros Hinv (cur & cell & Hcur & Hmemo & Hv & _ & _ & _ & _ & ->)%render_Some.
  apply js_index_elem_of in Hcur.
  destruct (useMemo_coherent _ _ _ _ Hinv Hcur Hmemo) as (Hres & Hval & Hdeps).
  split; [|by rewrite Hv].
  apply (heap_inv_extend s _ cur Hinv); simpl; [done| |by intros ? [= <-]].
  intros a [Ha|(c & [= <-] & ->)]%elem_of_held; [|by left].
  left. apply elem_of_held. by left.
Qed.

Lemma render_status (s s' : state) (v : view) :
  heap_inv s →
  render s = Some (v, s') →
  ∃ b, active s = Some b
       ∧ elems (currentSquares v) = b
       ∧ result v = calculateWinner b
       ∧ status v = EvaluateTerminal b.
Proof.
  intros Hinv Hr. destruct (render_heap_inv _ _ _ Hinv Hr) as [_ Hres].
  apply render_Some in Hr as
    (cur & cell & Hcur & _ & Hv & _ & Hw & Hwl & Hd & _).
  exists (elems cur). unfold active. rewrite Hcur. subst cur.
  split_and!; try done. by apply status_EvaluateTerminal.
Qed.

(** ** The handlers, case by case *)

Lemma js_slice_elem_of {A} (arr : list A) (start stop : Z) (a : A) :
  a ∈ js_slice arr start stop → a ∈ arr.
Proof.
  unfold js_slice. intros H.
  apply subseteq_take in H. by apply subseteq_drop in H.
Qed.

(** What a click on a square does to a state that renders: nothing, or
    one new snapshot after the active one. *)
Lemma step_click (s s' : state) (i : nat) :
  step s (SquareClick i) = Some s' →
  ∃ v cur s1,
    render s = Some (v, s1)
    ∧ js_index (history s) (currentMove s) = Some cur
    ∧ currentSquares v = cur
    ∧ ((truthy (winner v) || truthy (js_get (elems cur) i) = true
        ∧ s' = s1)
       ∨ (truthy (winner v) = false
          ∧ truthy (js_get (elems cur) i) = false
          ∧ history s'
            = take (S (Z.to_nat (currentMove s))) (history s)
              ++ [ {| ref := next_ref s;
                      elems := js_set (elems cur) i
                                 (Str (turn (xIsNext_of (currentMove s)))) |} ]
          ∧ currentMove s' = currentMove s + 1
          ∧ isAscending s' = isAscending s
          ∧ memo s' = memo s1
          ∧ next_ref s' = S (next_ref s))).
Proof.
  unfold step. destruct (render s) as [[v s1]|] eqn:Hr; [|done].
  simpl. intros [= <-]. exists v, (currentSquares v), s1.
  destruct (render_Some _ _ _ Hr) as
    (cur & cell & Hcur & _ & Hv & Hx & _ & _ & _ & Hs1).
  subst cur. split_and!; try done.
  unfold handleSquareClick.
  destruct (truthy (winner v) || truthy (js_get _ i)) eqn:Hg; [by left|].
  right. apply orb_false_iff in Hg as [Hw Hc]. split_and!; try done.
  - subst s1. unfold handlePlay. simpl. rewrite Hx.
    apply js_index_Some in Hcur as [Hk _]. by rewrite js_slice_prefix.
  - subst s1. unfold handlePlay. simpl.
    apply js_index_Some in Hcur as [Hk Hl]. apply lookup_lt_Some in Hl.
    rewrite js_slice_prefix by done.
    rewrite length_app, length_take_le by lia. cbn [length]. lia.
  - by subst s1.
  - by subst s1.
Qed.

Lemma step_other (s s' : state) (e : event) :
  step s e = Some s' →
  ∃ v s1, render s = Some (v, s1) ∧ s' = handle v s1 e.
Proof.
  unfold step. destruct (render s) as [[v s1]|]; [|done].
  simpl. intros [= <-]. eauto.
Qed.

Lemma render_frame (s s1 : state) (v : view) :
  render s = Some (v, s1) →
  history s1 = history s
  ∧ currentMove s1 = currentMove s
  ∧ isAscending s1 = isAscending s
  ∧ next_ref s1 = next_ref s.
Proof.
  intros (cur & cell & _ & _ & _ & _ & _ & _ & _ & ->)%render_Some. done.
Qed.

(** A step runs exactly when the active board exists. *)
Lemma step_is_Some (s : state) (e : event) :
  is_Some (step s e) ↔ 0 ≤ currentMove s < Z.of_nat (length (history s)).
Proof.
  rewrite <- render_is_Some. unfold step.
  destruct (render s) as [[v s1]|]; simpl.
  - split; intros _; by eexists.
  - split; by intros [? ?].
Qed.

(** ** Coherent identities are an invariant *)

Lemma handle_heap_inv (v : view) (s : state) (e : event) :
  heap_inv s → heap_inv (handle v s e).
Proof.
  intros Hinv. destruct e as [i|move| |]; simpl.
  - unfold handleSquareClick. destruct (_ || _); [done|].
    set (new := {| ref := next_ref s;
                   elems := js_set (elems (currentSquares v)) i
                              (Str (turn (xIsNext v))) |}).
    apply (heap_inv_extend s _ new Hinv); simpl; [lia| |apply Hinv].
    intros a [Ha|Ha]%elem_of_held; simpl in Ha.
    + apply elem_of_app in Ha as [Ha|Ha%list_elem_of_singleton].
      * left. apply elem_of_held. left. by eapply js_slice_elem_of.
      * right. subst a. simpl. split; [done|lia].
    + left. by apply elem_of_held; right.
  - apply (heap_inv_extend s _ (Build_array 0 []) Hinv); simpl;
      [done| |apply Hinv].
    intros a Ha. left. by apply elem_of_held; apply elem_of_held in Ha.
  - set (new := {| ref := next_ref s; elems := Array_fill_null 9 |}).
    apply (heap_inv_extend s _ new Hinv); simpl; [lia| |apply Hinv].
    intros a [Ha|Ha]%elem_of_held; simpl in Ha.
    + apply list_elem_of_singleton in Ha as ->. right. simpl. split; [done|lia].
    + left. by apply elem_of_held; right.
  - apply (heap_inv_extend s _ (Build_array 0 []) Hinv); simpl;
      [done| |apply Hinv].
    intros a Ha. left. by apply elem_of_held; apply elem_of_held in Ha.
Qed.

Lemma step_heap_inv (s s' : state) (e : event) :
  heap_inv s → step s e = Some s' → heap_inv s'.
Proof.
  intros Hinv (v & s1 & Hr & ->)%step_other.
  apply handle_heap_inv. by apply (render_heap_inv _ _ _ Hinv Hr).
Qed.

(** ** Invariants along a run *)

Section run_invariant.
Variable P : state → Prop.
Variable Q : event → Prop.
Hypothesis step_P : ∀ s e s', P s → Q e → step s e = Some s' → P s'.

Lemma run_invariant (es : list event) (s s' : state) :
  P s → Forall Q es → run s es = Some s' → P s'.
Proof.
  revert s. induction es as [|e es IH]; intros s Hs HQ; simpl.
  - by intros [= <-].
  - inversion HQ as [|e' es' He Hes]; subst e' es'.
    destruct (step s e) as [s1|] eqn:Hstep; [|done]. simpl.
    apply IH; [|done]. by eapply step_P.
Qed.
End run_invariant.

Lemma Forall_any_event (es : list event) : Forall (λ _, True) es.
Proof. by apply Forall_forall. Qed.

(** ** The boards of a game *)

Lemma boards_lookup (s : state) (n : nat) (a : array) :
  history s !! n = Some a → boards s !! n = Some (elems a).
Proof. unfold boards. rewrite list_lookup_fmap. by intros ->. Qed.

Lemma active_Some (s : state) (b : list jsval) :
  active s = Some b ↔
  ∃ cur, js_index (history s) (currentMove s) = Some cur ∧ elems cur = b.
Proof.
  unfold active. destruct (js_index _ _) as [cur|]; simpl.
  - split; [intros [= <-]; eauto|by intros (? & [= <-] & <-)].
  - split; [done|by intros (? & ? & _)].
Qed.

Lemma active_boards (s : state) (b : list jsval) :
  active s = Some b ↔
  0 ≤ currentMove s ∧ boards s !! Z.to_nat (currentMove s) = Some b.
Proof.
  rewrite active_Some. unfold boards. rewrite list_lookup_fmap. split.
  - intros (cur & [Hk Hl]%js_index_Some & <-). by rewrite Hl.
  - intros [Hk Hl]. destruct (history s !! _) as [cur|] eqn:Hc; [|done].
    injection Hl as <-. exists cur. by rewrite js_index_Some.
Qed.

Lemma js_set_in_range (b : list jsval) (i : nat) (v : jsval) :
  (i < length b)%nat → js_set b i v = <[i:=v]> b.
Proof. intros H. unfold js_set. by rewrite decide_True. Qed.

Lemma solid_length (b : list jsval) : solid b → (9 ≤ length b)%nat.
Proof.
  intros H. destruct (H 8%nat) as (v & Hv & _); [lia|].
  apply lookup_lt_Some in Hv. lia.
Qed.

Lemma solid_js_set (b : list jsval) (i : nat) (p : mark) :
  solid b → solid (js_set b i (Str p)).
Proof.
  intros Hb j Hj. destruct (Hb j Hj) as (v & Hv & Hne).
  pose proof (solid_length b Hb) as Hlen. unfold js_set. case_decide.
  - destruct (decide (i = j)) as [->|Hij].
    + exists (Str p). by rewrite list_lookup_insert_eq.
    + exists v. by rewrite list_lookup_insert_ne.
  - exists v. rewrite lookup_app_l by lia. done.
Qed.

Lemma solid_fill : solid (Array_fill_null 9).
Proof.
  intros i Hi. exists Null. split; [|done].
  by apply lookup_replicate_2.
Qed.

Lemma every_Boolean_lookup (b : list jsval) (i : nat) (v : jsval) :
  every_Boolean b = true → b !! i = Some v → v ≠ Null.
Proof.
  intros He Hv ->. by rewrite (every_Boolean_false _ _ Hv) in He.
Qed.

(** Cutting a history after snapshot [n] and appending a board related to
    snapshot [n] keeps every snapshot related to the one before it. *)
Lemma adjacent_snoc {A} (R : nat → A → A → Prop) (h : list A) (n : nat)
    (b b' : A) :
  (∀ k c c', h !! k = Some c → h !! S k = Some c' → R k c c') →
  h !! n = Some b → R n b b' →
  ∀ k c c', (take (S n) h ++ [b']) !! k = Some c →
            (take (S n) h ++ [b']) !! S k = Some c' → R k c c'.
Proof.
  intros Hch Hn Hw k c c' Hk HSk.
  pose proof (lookup_lt_Some _ _ _ Hn) as Hlt.
  assert (length (take (S n) h) = S n) as Hlen by (rewrite length_take; lia).
  destruct (decide (k < n)%nat) as [Hkn|Hkn].
  - rewrite lookup_app_l, lookup_take_lt in Hk by lia.
    rewrite lookup_app_l, lookup_take_lt in HSk by lia.
    by eapply Hch.
  - destruct (decide (k = n)) as [->|Hne].
    + rewrite lookup_app_l, lookup_take_lt in Hk by lia.
      rewrite lookup_app_r, Hlen, Nat.sub_diag in HSk by lia.
      simpl in HSk. congruence.
    + apply lookup_lt_Some in HSk. rewrite length_app, Hlen in HSk.
      simpl in HSk. lia.
Qed.

Lemma chain_snoc (h : list (list jsval)) (n : nat) (b b' : list jsval) :
  chain h → h !! n = Some b → written n b b' →
  chain (take (S n) h ++ [b']).
Proof.
  intros Hch Hn Hw k c c'. by apply (adjacent_snoc written h n b b').
Qed.

Lemma play_inv_fill : play_inv [Array_fill_null 9].
Proof.
  split_and!; [done| |].
  - repeat constructor. apply solid_fill.
  - by intros [|n] b b' Hn HSn.
Qed.

Lemma step_play_inv (s s' : state) (e : event) :
  play_inv (boards s) → step s e = Some s' → play_inv (boards s').
Proof.
  intros (H0 & Hsolid & Hchain) Hstep. destruct e as [i|move| |].
  - apply step_click in Hstep as
      (v & cur & s1 & Hr & Hcur & _ & [[_ ->]|(_ & Hcell & Hh & _)]).
    + apply render_frame in Hr as (Hh & _). unfold boards in *.
      by rewrite Hh.
    + apply js_index_Some in Hcur as [Hk Hl].
      assert (boards s' = take (S (Z.to_nat (currentMove s))) (boards s)
                ++ [js_set (elems cur) i
                      (Str (turn (xIsNext_of (currentMove s))))]) as Hb.
      { unfold boards. by rewrite Hh, fmap_app, fmap_take. }
      apply boards_lookup in Hl. rewrite Hb. split_and!.
      * rewrite lookup_app_l, lookup_take_lt; [done|lia|].
        rewrite length_take. apply lookup_lt_Some in Hl. lia.
      * apply Forall_app. split; [by apply Forall_take|].
        repeat constructor. apply solid_js_set.
        by eapply (proj1 (Forall_lookup _ _) Hsolid).
      * apply chain_snoc with (elems cur); [done|done|].
        exists i. split; [done|]. by rewrite Z2Nat.id.
  - apply step_other in Hstep as (v & s1 & Hr & ->).
    apply render_frame in Hr as (Hh & _). unfold boards in *. simpl.
    by rewrite Hh.
  - apply step_other in Hstep as (v & s1 & Hr & ->). apply play_inv_fill.
  - apply step_other in Hstep as (v & s1 & Hr & ->).
    apply render_frame in Hr as (Hh & _). unfold boards in *. simpl.
    by rewrite Hh.
Qed.

Lemma run_play_inv (s s' : state) (es : list event) :
  play_inv (boards s) → run s es = Some s' → play_inv (boards s').
Proof.
  intros Hs Hrun.
  apply (run_invariant (λ s, play_inv (boards s)) (λ _, True)) with es s;
    [|done|apply Forall_any_event|done].
  intros s0 e s1 H0 _. by apply step_play_inv.
Qed.

Lemma step_game_inv (s s' : state) (e : event) :
  game_inv s → step s e = Some s' → game_inv s'.
Proof.
  intros [Hheap Hplay] Hstep.
  split; [by eapply step_heap_inv|by eapply step_play_inv].
Qed.

(** Every state the component can be in has coherent identities and a
    history left by play. *)
Lemma reachable_game_inv (s : state) : reachable s → game_inv s.
Proof.
  intros [es Hrun].
  apply (run_invariant game_inv (λ _, True)) with es mount;
    [|split; [apply heap_inv_mount|apply play_inv_fill]
     |apply Forall_any_event|done].
  intros s0 e s1 H0 _. by apply step_game_inv.
Qed.

(** ** Clicks on a square *)

Lemma status_of_falsy (v : view) :
  truthy (winner v) = false →
  status v = if isDraw v then Draw else NoResult.
Proof. unfold status, status_of. by destruct (winner v). Qed.

Lemma status_of_truthy (v : view) :
  truthy (winner v) = true → status v ≠ NoResult.
Proof. unfold status, status_of. by destruct (winner v). Qed.

(** On a board whose first nine cells exist, a draw leaves none of them
    empty. *)
Lemma draw_cell_truthy (b : list jsval) (i : nat) :
  solid b → (i < 9)%nat → every_Boolean b = true →
  truthy (js_get b i) = true.
Proof.
  intros Hb Hi He. destruct (Hb i Hi) as (v & Hv & Hne).
  pose proof (every_Boolean_lookup _ _ _ He Hv).
  rewrite (js_get_lookup _ _ _ Hv). by destruct v.
Qed.

Lemma reachable_active_solid (s : state) (b : list jsval) :
  reachable s → active s = Some b → solid b.
Proof.
  intros (_ & _ & Hsolid & _)%reachable_game_inv [_ Hb]%active_boards.
  by eapply (proj1 (Forall_lookup _ _) Hsolid).
Qed.

(** [C3] A click on one of the nine squares is ignored when the active
    board is won or drawn, or when the clicked cell holds a mark: the
    handler returns the state it was given, so the history, the current
    move and the active board stay as they are, and nothing is thrown.
    This holds in every state with coherent identities whose active board
    has its nine cells, hence in every reachable state
    ([reachable_game_inv], [reachable_active_solid]). *)
Theorem click_ignored (s : state) (i : nat) (b : list jsval) :
  heap_inv s →
  (i < 9)%nat →
  active s = Some b →
  solid b →
  EvaluateTerminal b ≠ NoResult ∨ (∃ p, b !! i = Some (Str p)) →
  ∃ v s1,
    render s = Some (v, s1)
    ∧ handleSquareClick v s1 i = s1
    ∧ step s (SquareClick i) = Some s1
    ∧ history s1 = history s
    ∧ currentMove s1 = currentMove s
    ∧ isAscending s1 = isAscending s
    ∧ next_ref s1 = next_ref s
    ∧ active s1 = Some b.
Proof.
  intros Hheap Hi Hact Hsolid Hcase.
  destruct (proj2 (step_is_Some s (SquareClick i))) as [s' Hstep].
  { apply js_index_in_range. apply active_Some in Hact as (c & -> & _). eauto. }
  destruct (step_click _ _ _ Hstep) as (v & cur & s1 & Hr & Hcur & Hv & Hcases).
  destruct (render_status _ _ _ Hheap Hr) as (b' & Hact' & Hb' & _ & Hst).
  assert (b' = b) as -> by congruence.
  assert (elems cur = b) as Hcb by congruence.
  destruct (render_frame _ _ _ Hr) as (Hh & Hm & Ha & Hn).
  assert (truthy (winner v) || truthy (js_get b i) = true) as Hguard.
  { destruct (truthy (winner v)) eqn:Hw; [done|]. simpl.
    destruct Hcase as [Hterm|[p Hp]].
    - rewrite <- Hst, (status_of_falsy _ Hw) in Hterm.
      destruct (isDraw v) eqn:Hd; [|done].
      apply render_Some in Hr as (c & ? & Hc & _ & _ & _ & _ & _ & Hdraw & _).
      rewrite Hd in Hdraw. symmetry in Hdraw.
      apply andb_true_iff in Hdraw as [_ He].
      apply draw_cell_truthy; [done|done|congruence].
    - by rewrite (js_get_lookup _ _ _ Hp). }
  assert (handleSquareClick v s1 i = s1) as Hnoop.
  { unfold handleSquareClick. by rewrite Hv, Hcb, Hguard. }
  exists v, s1. split_and!; try done.
  - unfold step. rewrite Hr. simpl. by rewrite Hnoop.
  - unfold active. by rewrite Hh, Hm.
Qed.

Lemma click_ignored_witness :
  active top_row_state = Some top_row_board
  ∧ EvaluateTerminal top_row_board = Win X [0; 1; 2]%nat
  ∧ ∃ v s1,
      render top_row_state = Some (v, s1)
      ∧ handleSquareClick v s1 5 = s1
      ∧ step top_row_state (SquareClick 5) = Some s1
      ∧ history s1 = history top_row_state
      ∧ currentMove s1 = currentMove top_row_state
      ∧ isAscending s1 = isAscending top_row_state
      ∧ next_ref s1 = next_ref top_row_state
      ∧ active s1 = Some top_row_board.
Proof.
  split_and!; [reflexivity|reflexivity|].
  assert (reachable top_row_state) as Hreach by by exists top_row_game.
  apply (click_ignored top_row_state 5 top_row_board).
  - by apply reachable_game_inv.
  - lia.
  - reflexivity.
  - by apply (reachable_active_solid top_row_state).
  - left. by vm_compute.
Defined.

(** A click on an empty cell of a board that is neither won nor drawn
    takes effect. *)
Lemma click_effective (s : state) (i : nat) (b : list jsval) :
  heap_inv s →
  active s = Some b →
  EvaluateTerminal b = NoResult →
  b !! i = Some Null →
  ∃ s' new,
    step s (SquareClick i) = Some s'
    ∧ history s' = take (S (Z.to_nat (currentMove s))) (history s) ++ [new]
    ∧ elems new = <[i := Str (turn (xIsNext_of (currentMove s)))]> b
    ∧ currentMove s' = Z.of_nat (length (history s')) - 1
    ∧ currentMove s' = currentMove s + 1.
Proof.
  intros Hheap Hact Hterm Hcell.
  destruct (proj2 (step_is_Some s (SquareClick i))) as [s' Hstep].
  { apply js_index_in_range. apply active_Some in Hact as (c & -> & _). eauto. }
  destruct (step_click _ _ _ Hstep) as (v & cur & s1 & Hr & Hcur & Hv & Hcases).
  destruct (render_status _ _ _ Hheap Hr) as (b' & Hact' & Hb' & _ & Hst).
  assert (b' = b) as -> by congruence.
  assert (elems cur = b) as Hcb by congruence.
  rewrite Hcb, (js_get_lookup _ _ _ Hcell) in Hcases.
  destruct Hcases as [[Hg _]|(_ & _ & Hh & Hm & _)].
  { apply orb_true_iff in Hg as [Hw|?]; [|done].
    apply status_of_truthy in Hw. congruence. }
  apply js_index_Some in Hcur as [Hk Hl].
  pose proof (lookup_lt_Some _ _ _ Hl) as Hlt.
  assert (length (take (S (Z.to_nat (currentMove s))) (history s))
          = S (Z.to_nat (currentMove s))) as Hlen
    by (rewrite length_take; lia).
  eexists s', _. split_and!; [done|exact Hh| | |done].
  - simpl. apply js_set_in_range. by eapply lookup_lt_Some.
  - rewrite Hh, length_app, Hlen, Hm. simpl. lia.
Qed.

(** [C4] In a state with coherent identities (every reachable state is
    one) whose active board is neither won nor drawn, a click on an empty
    cell keeps the snapshots up to the current move, drops the later
    ones, appends the new board, and makes the new last index the current
    move.  In particular, after move 2 was selected in a history of six
    snapshots, the click leaves four snapshots: the former snapshots 0, 1
    and 2 and the new board. *)
Theorem click_truncates_and_appends (s : state) (i : nat) (b : list jsval) :
  heap_inv s →
  active s = Some b →
  EvaluateTerminal b = NoResult →
  b !! i = Some Null →
  ∃ s' new,
    step s (SquareClick i) = Some s'
    ∧ history s' = take (S (Z.to_nat (currentMove s))) (history s) ++ [new]
    ∧ elems new = <[i := Str (turn (xIsNext_of (currentMove s)))]> b
    ∧ currentMove s' = Z.of_nat (length (history s')) - 1
    ∧ currentMove s' = currentMove s + 1
    ∧ ∀ s0, s = jumpTo s0 2 → length (history s0) = 6%nat →
        length (history s') = 4%nat
        ∧ take 3 (history s') = take 3 (history s0)
        ∧ history s' !! 3%nat = Some new.
Proof.
  intros Hheap Hact Hterm Hcell.
  destruct (click_effective s i b Hheap Hact Hterm Hcell) as
    (s' & new & Hstep & Hh & Hnew & Hlast & Hm).
  exists s', new. split_and!; try done.
  intros s0 -> Hsix. simpl in Hh. change (Z.to_nat 2) with 2%nat in Hh.
  rewrite Hh. split_and!.
  - rewrite length_app, length_take, Hsix. done.
  - rewrite take_app_le, take_take; [done|]. rewrite length_take. lia.
  - rewrite lookup_app_r; rewrite length_take, Hsix; [done|]. simpl. lia.
Qed.

Lemma click_truncates_and_appends_witness :
  length (history five_moves_state) = 6%nat
  ∧ rewound_state = jumpTo rewound_state 2
  ∧ history rewound_state = history five_moves_state
  ∧ ∃ s' new,
      step rewound_state (SquareClick 8) = Some s'
      ∧ history s'
        = take (S (Z.to_nat (currentMove rewound_state)))
            (history rewound_state) ++ [new]
      ∧ elems new
        = <[8%nat := Str (turn (xIsNext_of (currentMove rewound_state)))]>
            second_move_board
      ∧ currentMove s' = Z.of_nat (length (history s')) - 1
      ∧ currentMove s' = currentMove rewound_state + 1
      ∧ ∀ s0, rewound_state = jumpTo s0 2 → length (history s0) = 6%nat →
          length (history s') = 4%nat
          ∧ take 3 (history s') = take 3 (history s0)
          ∧ history s' !! 3%nat = Some new.
Proof.
  split_and!; [reflexivity|reflexivity|reflexivity|].
  apply (click_truncates_and_appends rewound_state 8 second_move_board).
  - apply reachable_game_inv. by exists (five_moves_game ++ [HistoryClick 2]).
  - reflexivity.
  - reflexivity.
  - reflexivity.
Defined.

(** ** Whose turn it is *)

Lemma xIsNext_of_even (move : Z) : xIsNext_of move = Z.even move.
Proof.
  unfold xIsNext_of. destruct (Z.even move) eqn:He.
  - apply Z.even_spec in He as [k ->]. apply Z.eqb_eq.
    rewrite Z.mul_comm. by apply Z.rem_mul.
  - apply Z.eqb_neq. intros Hr.
    assert (Z.even move = true) as He'; [|congruence].
    apply Z.even_spec. exists (Z.quot move 2).
    pose proof (Z.quot_rem' move 2). lia.
Qed.

Lemma Z_parity_of_nat (n : nat) :
  Z.even (Z.of_nat n) = Nat.even n ∧ Z.odd (Z.of_nat n) = Nat.odd n.
Proof.
  induction n as [|n [IHe IHo]]; [done|].
  rewrite Nat2Z.inj_succ, Z.even_succ, Z.odd_succ, Nat.even_succ, Nat.odd_succ.
  done.
Qed.

Lemma turn_of_index (k : nat) :
  (1 ≤ k)%nat →
  turn (xIsNext_of (Z.of_nat (k - 1))) = if Nat.odd k then X else O.
Proof.
  destruct k as [|j]; [lia|]. intros _.
  replace (S j - 1)%nat with j by lia.
  rewrite xIsNext_of_even, (proj1 (Z_parity_of_nat j)), Nat.odd_succ.
  done.
Qed.

Lemma run_app (s : state) (es es' : list event) :
  run s (es ++ es') = run s es ≫= λ s', run s' es'.
Proof.
  revert s. induction es as [|e es IH]; intros s; simpl; [done|].
  destruct (step s e) as [s1|]; simpl; [apply IH|done].
Qed.

Lemma click_at_tip (s : state) (i : nat) :
  at_tip s →
  ∃ s', step s (SquareClick i) = Some s'
        ∧ at_tip s'
        ∧ history s `prefix_of` history s'.
Proof.
  intros [Hm Hlen].
  destruct (proj2 (step_is_Some s (SquareClick i))) as [s' Hstep]; [lia|].
  exists s'. split; [done|].
  destruct (step_click _ _ _ Hstep) as
    (v & cur & s1 & Hr & _ & _ & [[_ ->]|(_ & _ & Hh & Hm' & _)]).
  - unfold at_tip. destruct (render_frame _ _ _ Hr) as (-> & -> & _).
    by split.
  - unfold at_tip. rewrite take_ge in Hh by lia. rewrite Hh. split.
    + split; rewrite length_app; simpl; lia.
    + by apply prefix_app_r.
Qed.

Lemma clicks_at_tip (s : state) (indices : list nat) :
  at_tip s →
  ∃ s', run s (clicks indices) = Some s'
        ∧ at_tip s'
        ∧ history s `prefix_of` history s'.
Proof.
  revert s. induction indices as [|i indices IH]; intros s Htip.
  - by exists s.
  - destruct (click_at_tip s i Htip) as (s1 & Hstep & Htip1 & Hpre1).
    destruct (IH s1 Htip1) as (s' & Hrun & Htip' & Hpre').
    exists s'. split_and!; [|done|by etrans].
    unfold clicks. simpl. rewrite Hstep. done.
Qed.

(** [C5] The player to move is X exactly when the current move is even
    and O when it is odd.  Clicks made after a restart, with no jump in
    between, never throw and only append: every shorter run of them ends
    in a history that is a beginning of the final one, and snapshot [k]
    of the final history, for [k] from 1, is snapshot [k - 1] with one
    cell written, by X when [k] is odd and by O when [k] is even. *)
Theorem turn_alternates (s0 : state) (indices : list nat) :
  (∀ move, turn (xIsNext_of move) = if Z.even move then X else O)
  ∧ (∀ s v s1, render s = Some (v, s1) →
               xIsNext v = Z.even (currentMove s))
  ∧ ∃ s,
      run (resetGame s0) (clicks indices) = Some s
      ∧ (∀ played later, indices = played ++ later →
           ∃ s1, run (resetGame s0) (clicks played) = Some s1
                 ∧ history s1 `prefix_of` history s)
      ∧ ∀ k b, (1 ≤ k)%nat → boards s !! k = Some b →
          ∃ b0 i,
            boards s !! (k - 1)%nat = Some b0
            ∧ truthy (js_get b0 i) = false
            ∧ b = js_set b0 i (Str (if Nat.odd k then X else O))
            ∧ js_get b i = Str (if Nat.odd k then X else O).
Proof.
  split_and!.
  - intros move. by rewrite xIsNext_of_even.
  - intros s v s1 (? & ? & _ & _ & _ & -> & _)%render_Some.
    apply xIsNext_of_even.
  - assert (at_tip (resetGame s0)) as Htip by (split; simpl; lia).
    destruct (clicks_at_tip _ indices Htip) as (s & Hrun & _ & _).
    exists s. split_and!; [done| |].
    + intros played later ->.
      destruct (clicks_at_tip _ played Htip) as (s1 & Hrun1 & Htip1 & _).
      exists s1. split; [done|].
      unfold clicks in Hrun. rewrite fmap_app, run_app in Hrun.
      fold (clicks played) in Hrun. rewrite Hrun1 in Hrun. simpl in Hrun.
      destruct (clicks_at_tip _ later Htip1) as (s' & Hrun' & _ & Hpre).
      unfold clicks in Hrun'. congruence.
    + destruct (run_play_inv (resetGame s0) s _ play_inv_fill Hrun)
        as (_ & _ & Hchain).
      intros k b Hk Hb.
      destruct (boards s !! (k - 1)%nat) as [b0|] eqn:Hb0.
      2:{ apply lookup_ge_None in Hb0. apply lookup_lt_Some in Hb. lia. }
      replace k with (S (k - 1)) in Hb by lia.
      destruct (Hchain _ _ _ Hb0 Hb) as (i & Hfalsy & Hset).
      rewrite turn_of_index in Hset by done.
      exists b0, i. split_and!; try done.
      rewrite Hset. unfold js_set, js_get. case_decide.
      * by rewrite list_lookup_insert_eq.
      * rewrite lookup_app_r by lia. rewrite lookup_app_r;
          rewrite length_replicate; [|lia].
        by replace (i - length b0 - (i - length b0))%nat with 0%nat by lia.
Qed.

Lemma turn_alternates_witness :
  (boards <$> run (resetGame top_row_state) (clicks [4; 4; 0; 8]%nat))
  = Some [ [Null; Null; Null; Null; Null; Null; Null; Null; Null];
           [Null; Null; Null; Null; Str X; Null; Null; Null; Null];
           [Str O; Null; Null; Null; Str X; Null; Null; Null; Null];
           [Str O; Null; Null; Null; Str X; Null; Null; Null; Str X] ]
  ∧ (∀ move, turn (xIsNext_of move) = if Z.even move then X else O)
  ∧ (∀ s v s1, render s = Some (v, s1) →
               xIsNext v = Z.even (currentMove s))
  ∧ ∃ s,
      run (resetGame top_row_state) (clicks [4; 4; 0; 8]%nat) = Some s
      ∧ (∀ played later, [4; 4; 0; 8]%nat = played ++ later →
           ∃ s1, run (resetGame top_row_state) (clicks played) = Some s1
                 ∧ history s1 `prefix_of` history s)
      ∧ ∀ k b, (1 ≤ k)%nat → boards s !! k = Some b →
          ∃ b0 i,
            boards s !! (k - 1)%nat = Some b0
            ∧ truthy (js_get b0 i) = false
            ∧ b = js_set b0 i (Str (if Nat.odd k then X else O))
            ∧ js_get b i = Str (if Nat.odd k then X else O).
Proof.
  split; [reflexivity|].
  apply (turn_alternates top_row_state [4; 4; 0; 8]%nat).
Defined.

(** ** The status after time travel *)


Lemma step_nine_cells (s s' : state) (e : event) :
  nine_cells s → board_event e → step s e = Some s' → nine_cells s'.
Proof.
  unfold nine_cells. intros Hnine He Hstep. destruct e as [i|move| |].
  - apply step_click in Hstep as
      (v & cur & s1 & Hr & Hcur & _ & [[_ ->]|(_ & _ & Hh & _)]).
    + apply render_frame in Hr as (Hh & _). unfold boards in *. by rewrite Hh.
    + apply js_index_Some in Hcur as [_ Hl]. apply boards_lookup in Hl.
      pose proof (proj1 (Forall_lookup _ _) Hnine _ _ Hl) as Hlen.
      unfold boards in *. rewrite Hh, fmap_app. apply Forall_app. split.
      * rewrite fmap_take. by apply Forall_take.
      * repeat constructor. simpl in *.
        rewrite js_set_in_range, length_insert; [done|lia].
  - apply step_other in Hstep as (v & s1 & Hr & ->).
    apply render_frame in Hr as (Hh & _). unfold boards in *. simpl.
    by rewrite Hh.
  - apply step_other in Hstep as (v & s1 & Hr & ->). by repeat constructor.
  - apply step_other in Hstep as (v & s1 & Hr & ->).
    apply render_frame in Hr as (Hh & _). unfold boards in *. simpl.
    by rewrite Hh.
Qed.

Lemma run_nine_cells (es : list event) (s : state) :
  Forall board_event es → run mount es = Some s → nine_cells s.
Proof.
  intros Hes Hrun.
  apply (run_invariant nine_cells board_event) with es mount; try done.
  - intros s0 e s1. apply step_nine_cells.
  - by repeat constructor.
Qed.

(** A snapshot that has a successor on a nine-cell history still has an
    empty cell. *)
Lemma written_from_empty (n : nat) (b b' : list jsval) :
  written n b b' → solid b → length b = 9%nat → length b' = 9%nat →
  ∃ i, (i < 9)%nat ∧ b !! i = Some Null
       ∧ b' = <[i := Str (turn (xIsNext_of (Z.of_nat n)))]> b.
Proof.
  intros (i & Hfalsy & ->) Hsolid Hb Hb'. exists i.
  unfold js_set in *. case_decide as Hi.
  - split_and!; [lia| |done]. destruct (Hsolid i) as (v & Hv & Hne); [lia|].
    rewrite (js_get_lookup _ _ _ Hv) in Hfalsy. by destruct v.
  - rewrite !length_app, length_replicate in Hb'. simpl in Hb'. lia.
Qed.

(** [C6] The status a render shows is always the one [EvaluateTerminal]
    gives on the active board [history[currentMove]]: the history stores
    boards only, and the memo cell never answers for another board.  In
    particular, once a game played on the nine squares is won, selecting
    an earlier snapshot without a complete triple shows a game in
    progress, and a click on an empty cell of it takes effect again. *)
Theorem status_follows_active_board (es : list event) (s : state) :
  run mount es = Some s →
  (∀ v s1, render s = Some (v, s1) →
     ∃ b, active s = Some b
          ∧ result v = calculateWinner b
          ∧ status v = EvaluateTerminal b)
  ∧ (is_Some (active s) → is_Some (render s))
  ∧ (Forall board_event es →
     ∀ bw p l j bj,
       active s = Some bw →
       EvaluateTerminal bw = Win p l →
       0 ≤ j < currentMove s →
       boards s !! Z.to_nat j = Some bj →
       (∀ t, t ∈ lines → ¬ complete bj t) →
       ∃ s1 v s2,
         step s (HistoryClick j) = Some s1
         ∧ history s1 = history s
         ∧ active s1 = Some bj
         ∧ render s1 = Some (v, s2)
         ∧ status v = NoResult
         ∧ ∀ i, bj !! i = Some Null →
             ∃ s3 new,
               step s1 (SquareClick i) = Some s3
               ∧ history s3 = take (S (Z.to_nat j)) (history s) ++ [new]
               ∧ elems new = <[i := Str (turn (xIsNext_of j))]> bj
               ∧ currentMove s3 = j + 1).
Proof.
  intros Hrun.
  assert (reachable s) as Hreach by by exists es.
  pose proof (reachable_game_inv _ Hreach) as (Hheap & _ & Hsolid & Hchain).
  split_and!.
  - intros v s1 Hr.
    destruct (render_status _ _ _ Hheap Hr) as (b & Hb & _ & Hres & Hst).
    by exists b.
  - intros Hact. apply render_is_Some, js_index_in_range.
    unfold active in Hact. by apply fmap_is_Some in Hact.
  - intros Hes bw p l j bj Hact _ Hj Hbj Hno.
    pose proof (run_nine_cells _ _ Hes Hrun) as Hnine.
    apply active_boards in Hact as [_ Hbw].
    pose proof (lookup_lt_Some _ _ _ Hbw) as Hlt.
    unfold boards in Hlt. rewrite length_fmap in Hlt.
    destruct (proj2 (step_is_Some s (HistoryClick j))) as [s1 Hstep]; [lia|].
    pose proof (step_heap_inv _ _ _ Hheap Hstep) as Hheap1.
    destruct (step_other _ _ _ Hstep) as (v0 & s0 & Hr0 & Hs1).
    destruct (render_frame _ _ _ Hr0) as (Hh0 & _).
    assert (history s1 = history s) as Hh1 by (by subst s1).
    assert (currentMove s1 = j) as Hm1 by (by subst s1).
    assert (active s1 = Some bj) as Hact1.
    { apply active_boards. unfold boards in *. rewrite Hh1, Hm1.
      split; [lia|done]. }
    destruct (proj2 (render_is_Some s1)) as [[v s2] Hr1].
    { rewrite Hh1, Hm1. lia. }
    destruct (render_status _ _ _ Hheap1 Hr1) as (b & Hb & _ & _ & Hst).
    assert (b = bj) as -> by congruence.
    (* the snapshot after [bj] exists: [bj] has an empty cell *)
    destruct (boards s !! S (Z.to_nat j)) as [bj'|] eqn:Hbj'.
    2:{ apply lookup_ge_None in Hbj'. unfold boards in Hbj'.
        rewrite length_fmap in Hbj'. lia. }
    destruct (written_from_empty _ _ _ (Hchain _ _ _ Hbj Hbj'))
      as (i0 & _ & Hempty & _).
    { by eapply (proj1 (Forall_lookup _ _) Hsolid). }
    { by eapply (proj1 (Forall_lookup _ _) Hnine). }
    { by eapply (proj1 (Forall_lookup _ _) Hnine). }
    assert (EvaluateTerminal bj = NoResult) as Hterm.
    { rewrite EvaluateTerminal_no_line by by apply scan_lines_none.
      by rewrite (every_Boolean_false _ _ Hempty). }
    exists s1, v, s2. split_and!; try done; [congruence|].
    intros i Hi.
    destruct (click_effective s1 i bj Hheap1 Hact1 Hterm Hi) as
      (s3 & new & Hstep3 & Hh3 & Hnew & _ & Hm3).
    exists s3, new. rewrite Hh1, Hm1 in Hh3. rewrite Hm1 in Hnew, Hm3. done.
Qed.

Lemma status_follows_active_board_witness :
  run mount top_row_game = Some top_row_state
  ∧ EvaluateTerminal top_row_board = Win X [0; 1; 2]%nat
  ∧ ∃ s1 v s2,
      step top_row_state (HistoryClick 2) = Some s1
      ∧ history s1 = history top_row_state
      ∧ active s1 = Some second_move_board
      ∧ render s1 = Some (v, s2)
      ∧ status v = NoResult
      ∧ ∀ i, second_move_board !! i = Some Null →
          ∃ s3 new,
            step s1 (SquareClick i) = Some s3
            ∧ history s3 = take (S (Z.to_nat 2)) (history top_row_state)
                           ++ [new]
            ∧ elems new
              = <[i := Str (turn (xIsNext_of 2))]> second_move_board
            ∧ currentMove s3 = 2 + 1.
Proof.
  split_and!; [reflexivity|reflexivity|].
  assert (run mount top_row_game = Some top_row_state) as Hrun
    by reflexivity.
  apply (proj2 (proj2 (status_follows_active_board _ _ Hrun)))
    with top_row_board X [0; 1; 2]%nat.
  - unfold top_row_game, clicks. simpl. repeat constructor; simpl; lia.
  - reflexivity.
  - reflexivity.
  - simpl. lia.
  - reflexivity.
  - apply scan_lines_none. reflexivity.
Defined.

(** ** Jumps and restarts *)

(** [C7] For a move that indexes an existing snapshot, [jumpTo] makes it
    the current move and leaves the history as it is: the same snapshots,
    none cut off, none changed.  The board of that move becomes the
    active one. *)
Theorem jumpTo_in_range (s : state) (move : Z) :
  0 ≤ move < Z.of_nat (length (history s)) →
  currentMove (jumpTo s move) = move
  ∧ history (jumpTo s move) = history s
  ∧ isAscending (jumpTo s move) = isAscending s
  ∧ active (jumpTo s move) = boards s !! Z.to_nat move
  ∧ is_Some (active (jumpTo s move))
  ∧ ∀ s', step s (HistoryClick move) = Some s' →
          currentMove s' = move ∧ history s' = history s.
Proof.
  intros Hmove.
  assert (active (jumpTo s move) = boards s !! Z.to_nat move) as Hact.
  { unfold active, js_index, boards. simpl.
    rewrite decide_True by lia. by rewrite list_lookup_fmap. }
  split_and!; try done.
  - rewrite Hact. apply lookup_lt_is_Some. unfold boards.
    rewrite length_fmap. lia.
  - intros s' (v & s1 & Hr & ->)%step_other.
    apply render_frame in Hr as (Hh & _). by split.
Qed.

Lemma jumpTo_in_range_witness :
  currentMove (jumpTo five_moves_state 2) = 2
  ∧ history (jumpTo five_moves_state 2) = history five_moves_state
  ∧ isAscending (jumpTo five_moves_state 2) = isAscending five_moves_state
  ∧ active (jumpTo five_moves_state 2)
    = boards five_moves_state !! Z.to_nat 2
  ∧ is_Some (active (jumpTo five_moves_state 2))
  ∧ ∀ s', step five_moves_state (HistoryClick 2) = Some s' →
          currentMove s' = 2 ∧ history s' = history five_moves_state.
Proof. apply (jumpTo_in_range five_moves_state 2). simpl. lia. Defined.

(** [C9] Whatever the state, [resetGame] leaves a history of exactly one
    board, nine empty cells, and current move 0: the history and the
    current move of the freshly mounted component, with X to move and no
    result. *)
Theorem resetGame_initial (s : state) :
  boards (resetGame s) = [Array_fill_null 9]
  ∧ Array_fill_null 9
    = [Null; Null; Null; Null; Null; Null; Null; Null; Null]
  ∧ length (history (resetGame s)) = 1%nat
  ∧ currentMove (resetGame s) = 0
  ∧ boards (resetGame s) = boards mount
  ∧ currentMove (resetGame s) = currentMove mount
  ∧ active (resetGame s) = Some (Array_fill_null 9)
  ∧ EvaluateTerminal (Array_fill_null 9) = NoResult
  ∧ xIsNext_of (currentMove (resetGame s)) = true.
Proof. by split_and!. Qed.

(** [C10] [jumpTo] checks no bound: for every integer it makes that
    integer the current move and leaves the history alone.  When the
    integer indexes no snapshot, [history[currentMove]] is [undefined]
    afterwards: there is no active board, the next render throws, and no
    event is handled any more. *)
Theorem jumpTo_unchecked (s : state) (move : Z) :
  currentMove (jumpTo s move) = move
  ∧ history (jumpTo s move) = history s
  ∧ (¬ (0 ≤ move < Z.of_nat (length (history s))) →
     js_index (history (jumpTo s move)) (currentMove (jumpTo s move)) = None
     ∧ active (jumpTo s move) = None
     ∧ render (jumpTo s move) = None
     ∧ ∀ e, step (jumpTo s move) e = None).
Proof.
  split_and!; try done. intros Hout.
  assert (js_index (history (jumpTo s move)) (currentMove (jumpTo s move))
          = None) as Hnone by by apply js_index_None.
  split_and!; [done| | |].
  - unfold active. by rewrite Hnone.
  - unfold render. by rewrite Hnone.
  - intros e. unfold step, render. by rewrite Hnone.
Qed.

Lemma jumpTo_unchecked_witness :
  length (history five_moves_state) = 6%nat
  ∧ currentMove (jumpTo five_moves_state 6) = 6
  ∧ history (jumpTo five_moves_state 6) = history five_moves_state
  ∧ active (jumpTo five_moves_state 6) = None
  ∧ render (jumpTo five_moves_state 6) = None
  ∧ active (jumpTo five_moves_state (-1)) = None.
Proof.
  destruct (jumpTo_unchecked five_moves_state 6) as (Hm & Hh & Hout).
  destruct Hout as (_ & Hact & Hr & _); [simpl; lia|].
  destruct (jumpTo_unchecked five_moves_state (-1)) as (_ & _ & Hout').
  destruct Hout' as (_ & Hact' & _); [simpl; lia|].
  by split_and!.
Defined.

(** ** The invariant of the history *)

(** Under the invariant no snapshot has a hole. *)
Lemma history_inv_no_hole (h : list (list jsval)) (n : nat)
    (b : list jsval) (j : nat) (v : jsval) :
  history_inv h → h !! n = Some b → b !! j = Some v → v ≠ Undefined.
Proof.
  intros (H0 & _ & Hadj). revert b j v.
  induction n as [|n IH]; intros b j v Hb Hv.
  - assert (b = Array_fill_null 9) as -> by congruence.
    apply lookup_replicate in Hv as [-> _]. done.
  - destruct (h !! n) as [b0|] eqn:Hb0.
    2:{ apply lookup_ge_None in Hb0. apply lookup_lt_Some in Hb. lia. }
    destruct (Hadj _ _ _ Hb0 Hb) as (i & Hsame & Hi).
    destruct (decide (j = i)) as [->|Hne].
    + destruct Hi as [Heq|(_ & p & Hp)].
      * rewrite Heq in Hv. by eapply IH.
      * congruence.
    + rewrite (Hsame j Hne) in Hv. by eapply IH.
Qed.

Lemma one_more_mark_insert (b : list jsval) (i : nat) (p : mark) :
  b !! i = Some Null → one_more_mark b (<[i := Str p]> b).
Proof.
  intros Hi. exists i. split.
  - intros j Hne. by rewrite list_lookup_insert_ne.
  - right. split; [done|]. exists p.
    apply list_lookup_insert_eq. by eapply lookup_lt_Some.
Qed.

Lemma history_inv_fill : history_inv [Array_fill_null 9].
Proof.
  split_and!; [done|by repeat constructor|].
  by intros [|n] b b' Hn HSn.
Qed.

Lemma step_history_inv (s s' : state) (e : event) :
  history_inv (boards s) → board_event e → step s e = Some s' →
  history_inv (boards s').
Proof.
  intros Hinv He Hstep. destruct e as [i|move| |].
  - apply step_click in Hstep as
      (v & cur & s1 & Hr & Hcur & _ & [[_ ->]|(_ & Hfalsy & Hh & _)]).
    + apply render_frame in Hr as (Hh & _). unfold boards in *. by rewrite Hh.
    + apply js_index_Some in Hcur as [_ Hl]. apply boards_lookup in Hl.
      pose proof Hinv as (H0 & Hnine & Hadj).
      pose proof (proj1 (Forall_lookup _ _) Hnine _ _ Hl) as Hlen.
      simpl in He, Hlen.
      destruct (lookup_lt_is_Some_2 (elems cur) i) as [c Hc]; [lia|].
      assert (c = Null) as ->.
      { pose proof (history_inv_no_hole _ _ _ _ _ Hinv Hl Hc).
        rewrite (js_get_lookup _ _ _ Hc) in Hfalsy. by destruct c. }
      assert (boards s' = take (S (Z.to_nat (currentMove s))) (boards s)
                ++ [<[i := Str (turn (xIsNext_of (currentMove s)))]>
                      (elems cur)]) as ->.
      { unfold boards. rewrite Hh, fmap_app, fmap_take. simpl.
        by rewrite js_set_in_range by lia. }
      split_and!.
      * rewrite lookup_app_l, lookup_take_lt; [done|lia|].
        rewrite length_take. apply lookup_lt_Some in Hl. lia.
      * apply Forall_app. split; [by apply Forall_take|].
        repeat constructor. by rewrite length_insert.
      * apply (adjacent_snoc (λ _, one_more_mark) _ _ (elems cur));
          [done|done|]. by apply one_more_mark_insert.
  - apply step_other in Hstep as (v & s1 & Hr & ->).
    apply render_frame in Hr as (Hh & _). unfold boards in *. simpl.
    by rewrite Hh.
  - apply step_other in Hstep as (v & s1 & Hr & ->). apply history_inv_fill.
  - apply step_other in Hstep as (v & s1 & Hr & ->).
    apply render_frame in Hr as (Hh & _). unfold boards in *. simpl.
    by rewrite Hh.
Qed.

(** Every state reached through the nine squares, the history list and
    the restart button satisfies the invariant. *)
Lemma run_history_inv (es : list event) (s : state) :
  Forall board_event es → run mount es = Some s → history_inv (boards s).
Proof.
  intros Hes Hrun.
  apply (run_invariant (λ s, history_inv (boards s)) board_event)
    with es mount; try done.
  - intros s0 e s1. apply step_history_inv.
  - apply history_inv_fill.
Qed.

(** [C8] Each of the three operations keeps the invariant of the history:
    snapshot 0 is the board of nine empty cells, every snapshot has nine
    cells, and each later snapshot differs from the one before it in at
    most one cell, which went from empty to a mark.  This holds for a click
    on one of the nine squares, for a jump and for a restart, both as
    events of the rendered component and, for the last two, as the bare
    handlers; and the event is handled, not thrown on, whenever the
    current move indexes a snapshot. *)
Theorem operations_keep_history_inv (s : state) (e : event) :
  history_inv (boards s) →
  board_event e →
  (∀ s', step s e = Some s' → history_inv (boards s'))
  ∧ (0 ≤ currentMove s < Z.of_nat (length (history s)) →
     ∃ s', step s e = Some s' ∧ history_inv (boards s'))
  ∧ (∀ move, history_inv (boards (jumpTo s move)))
  ∧ history_inv (boards (resetGame s)).
Proof.
  intros Hinv He. split_and!.
  - intros s'. by apply step_history_inv.
  - intros [s' Hstep]%(step_is_Some s e). exists s'.
    split; [done|]. by eapply step_history_inv.
  - done.
  - apply history_inv_fill.
Qed.

Lemma operations_keep_history_inv_witness :
  history_inv (boards five_moves_state)
  ∧ (∃ s', step five_moves_state (SquareClick 2) = Some s'
           ∧ history_inv (boards s')
           ∧ boards s' !! 6%nat
             = Some [Str X; Str X; Str O; Null; Str O; Null; Null; Str O; Str X])
  ∧ history_inv (boards (resetGame five_moves_state)).
Proof.
  assert (history_inv (boards five_moves_state)) as Hinv.
  { apply (run_history_inv five_moves_game); [|reflexivity].
    unfold five_moves_game, clicks. simpl. repeat constructor; simpl; lia. }
  assert (board_event (SquareClick 2)) as He by (simpl; lia).
  destruct (operations_keep_history_inv five_moves_state (SquareClick 2)
              Hinv He) as (Hstep & _ & _ & Hreset).
  split_and!; [done| |done].
  eexists. split_and!; [reflexivity| |reflexivity]. by apply Hstep.
Defined.

(** ** The scenarios of the specification *)

Example top_row_game_is_won :
  run mount top_row_game = Some top_row_state
  ∧ active top_row_state = Some top_row_board
  ∧ EvaluateTerminal top_row_board = Win X [0; 1; 2]%nat.
Proof. by split_and!. Qed.

Example drawn_game_is_drawn :
  run mount drawn_game = Some drawn_state
  ∧ EvaluateTerminal <$> active drawn_state = Some Draw
  ∧ length (history drawn_state) = 10%nat.
Proof. by split_and!. Qed.

Example occupied_click_changes_nothing :
  (boards <$> run mount (clicks [4; 4]%nat))
  = (boards <$> run mount (clicks [4]%nat))
  ∧ (currentMove <$> run mount (clicks [4; 4]%nat)) = Some 1.
Proof. by split_and!. Qed.

(** A click past the ninth square, which the rendered board cannot
    produce, would grow the array and leave holes. *)
Example click_past_the_board :
  (active <$> run mount (clicks [11]%nat))
  = Some (Some [Null; Null; Null; Null; Null; Null; Null; Null; Null;
                Undefined; Undefined; Str X]).
Proof. reflexivity. Qed.

(** * Further properties *)

(** ** More on the winner scan *)

Lemma lines_on_board (a b c : nat) :
  (a, b, c) ∈ lines → (a < b)%nat ∧ (b < c)%nat ∧ (c < 9)%nat.
Proof.
  unfold lines. rewrite !elem_of_cons, elem_of_nil.
  intros H. repeat destruct H as [H|H]; try done;
    injection H as -> -> ->; lia.
Qed.

Lemma scan_lines_sound (squares : list jsval) (ls : list (nat * nat * nat))
    (r : winrec) :
  scan_lines squares ls = Some r →
  ∃ a b c p,
    (a, b, c) ∈ ls
    ∧ r = {| player := Str p; line := [a; b; c] |}
    ∧ squares !! a = Some (Str p)
    ∧ squares !! b = Some (Str p)
    ∧ squares !! c = Some (Str p).
Proof.
  induction ls as [|[[a b] c] rest IH]; [done|rewrite scan_lines_cons].
  destruct (line_hit squares (a, b, c)) eqn:Hhit.
  - intros [= <-]. apply line_hit_complete in Hhit as (p & Ha & Hb & Hc).
    cbn [fst snd] in Ha, Hb, Hc.
    exists a, b, c, p. split_and!; [by left| |done|done|done].
    by rewrite (js_get_lookup _ _ _ Ha).
  - intros (a' & b' & c' & p & Hin & H)%IH.
    exists a', b', c', p. split; [by right|done].
Qed.

Lemma calculateWinner_Some_inv (squares : list jsval) (r : winrec) :
  calculateWinner squares = Some r →
  ∃ a b c p,
    r = {| player := Str p; line := [a; b; c] |}
    ∧ (a, b, c) ∈ lines
    ∧ (a < b)%nat ∧ (b < c)%nat ∧ (c < 9)%nat
    ∧ squares !! a = Some (Str p)
    ∧ squares !! b = Some (Str p)
    ∧ squares !! c = Some (Str p).
Proof.
  intros (a & b & c & p & Hin & -> & Ha & Hb & Hc)%scan_lines_sound.
  pose proof (lines_on_board _ _ _ Hin) as (Hab & Hbc & Hc9).
  exists a, b, c, p. by split_and!.
Qed.

(** Whatever [calculateWinner] returns is one of the eight triples, with
    its three distinct cells on the board, all holding the mark it names
    as the player. *)
Theorem calculateWinner_sound (squares : list jsval) (r : winrec) :
  calculateWinner squares = Some r →
  ∃ a b c p,
    (a, b, c) ∈ lines
    ∧ line r = [a; b; c]
    ∧ player r = Str p
    ∧ (a < b)%nat ∧ (b < c)%nat ∧ (c < 9)%nat
    ∧ squares !! a = Some (Str p)
    ∧ squares !! b = Some (Str p)
    ∧ squares !! c = Some (Str p).
Proof.
  intros (a & b & c & p & Hin & -> & Ha & Hb & Hc)%scan_lines_sound.
  pose proof (lines_on_board _ _ _ Hin) as (Hab & Hbc & Hc9).
  exists a, b, c, p. by split_and!.
Qed.

Lemma calculateWinner_sound_witness :
  ∃ a b c p,
    (a, b, c) ∈ lines
    ∧ [0; 1; 2]%nat = [a; b; c]
    ∧ Str X = Str p
    ∧ (a < b)%nat ∧ (b < c)%nat ∧ (c < 9)%nat
    ∧ double_line_board !! a = Some (Str p)
    ∧ double_line_board !! b = Some (Str p)
    ∧ double_line_board !! c = Some (Str p).
Proof.
  apply (calculateWinner_sound double_line_board
           {| player := Str X; line := [0; 1; 2]%nat |}).
  reflexivity.
Defined.

(** ** The two players are treated alike *)

Lemma js_get_swap (squares : list jsval) (i : nat) :
  js_get (swap_marks <$> squares) i = swap_marks (js_get squares i).
Proof.
  unfold js_get. rewrite list_lookup_fmap. by destruct (squares !! i).
Qed.

Lemma swap_marks_inj (v w : jsval) : swap_marks v = swap_marks w → v = w.
Proof. destruct v as [| |[|]], w as [| |[|]]; simpl; congruence. Qed.

Lemma line_hit_swap (squares : list jsval) (t : nat * nat * nat) :
  line_hit (swap_marks <$> squares) t = line_hit squares t.
Proof.
  destruct t as [[a b] c]. unfold line_hit, strict_eq.
  rewrite !js_get_swap. f_equal; [f_equal|].
  - by destruct (js_get squares a).
  - apply bool_decide_ext. split; [apply swap_marks_inj|by intros ->].
  - apply bool_decide_ext. split; [apply swap_marks_inj|by intros ->].
Qed.

Lemma every_Boolean_swap (squares : list jsval) :
  every_Boolean (swap_marks <$> squares) = every_Boolean squares.
Proof.
  induction squares as [|v rest IH]; [done|].
  unfold every_Boolean in *. rewrite fmap_cons. simpl. rewrite IH.
  by destruct v.
Qed.

(** Exchanging X and O on a board exchanges them in the result and
    changes nothing else: the same line is reported, a draw stays a draw,
    a game in progress stays in progress. *)
Theorem calculateWinner_swap (squares : list jsval) :
  calculateWinner (swap_marks <$> squares)
  = swap_winrec <$> calculateWinner squares
  ∧ EvaluateTerminal (swap_marks <$> squares)
    = match EvaluateTerminal squares with
      | Win p l => Win (other p) l
      | Draw => Draw
      | NoResult => NoResult
      end.
Proof.
  assert (∀ ls, scan_lines (swap_marks <$> squares) ls
                = swap_winrec <$> scan_lines squares ls) as Hscan.
  { induction ls as [|[[a b] c] rest IH]; [done|].
    rewrite !scan_lines_cons, line_hit_swap, IH, js_get_swap.
    by destruct (line_hit squares (a, b, c)). }
  split; [apply Hscan|].
  unfold EvaluateTerminal, calculateWinner. rewrite Hscan.
  destruct (scan_lines squares lines) as [r|] eqn:Hr; simpl.
  - destruct (scan_lines_player _ _ _ Hr) as [p Hp]. destruct r as [pl l].
    simpl in *. subst pl. done.
  - unfold isDraw_of. simpl. rewrite every_Boolean_swap.
    by destruct (every_Boolean squares).
Qed.

(** ** The shape of a played history *)

Lemma winner_falsy_no_line (v : view) (b : list jsval) :
  result v = calculateWinner b →
  winner v = winner_of (result v) →
  truthy (winner v) = false →
  calculateWinner b = None.
Proof.
  intros Hres Hw Hfalsy. rewrite <- Hres.
  destruct (result v) as [r|] eqn:Hr; [|done].
  symmetry in Hres. destruct (scan_lines_player _ _ _ Hres) as [p Hp].
  rewrite Hw in Hfalsy. simpl in Hfalsy. by rewrite Hp in Hfalsy.
Qed.

Lemma step_no_early_win (s s' : state) (e : event) :
  heap_inv s → no_early_win (boards s) → step s e = Some s' →
  no_early_win (boards s').
Proof.
  intros Hheap Hinv Hstep. destruct e as [i|move| |].
  - apply step_click in Hstep as
      (v & cur & s1 & Hr & Hcur & Hv & [[_ ->]|(Hw & _ & Hh & _)]).
    + apply render_frame in Hr as (Hh & _). unfold boards in *. by rewrite Hh.
    + destruct (render_heap_inv _ _ _ Hheap Hr) as [_ Hres].
      apply render_Some in Hr as (? & ? & _ & _ & _ & _ & Hwin & _).
      rewrite Hv in Hres.
      pose proof (winner_falsy_no_line _ _ Hres Hwin Hw) as Hnone.
      apply js_index_Some in Hcur as [_ Hl]. apply boards_lookup in Hl.
      pose proof (lookup_lt_Some _ _ _ Hl) as Hlt.
      intros n b Hn Hlen. unfold boards in Hn, Hlen.
      rewrite Hh, fmap_app, fmap_take in Hn, Hlen.
      fold (boards s) in Hn, Hlen.
      rewrite length_app, length_take_le, length_fmap in Hlen by lia.
      cbn [length] in Hlen.
      rewrite lookup_app_l, lookup_take_lt in Hn
        by (try rewrite length_take_le; lia).
      destruct (decide (n = Z.to_nat (currentMove s))) as [->|Hne].
      * congruence.
      * apply (Hinv n b Hn). lia.
  - apply step_other in Hstep as (v & s1 & Hr & ->).
    apply render_frame in Hr as (Hh & _). unfold boards in *. simpl.
    by rewrite Hh.
  - apply step_other in Hstep as (v & s1 & Hr & ->).
    intros n b _ Hlen. simpl in Hlen. lia.
  - apply step_other in Hstep as (v & s1 & Hr & ->).
    apply render_frame in Hr as (Hh & _). unfold boards in *. simpl.
    by rewrite Hh.
Qed.

Lemma step_legal (s s' : state) (e : event) :
  legal s → board_event e → step s e = Some s' → legal s'.
Proof.
  intros (Hheap & Hplay & Hnine & Hearly) He Hstep. split_and!.
  - by eapply step_heap_inv.
  - by eapply step_play_inv.
  - by eapply step_nine_cells.
  - by eapply step_no_early_win.
Qed.

Lemma legal_mount : legal mount.
Proof.
  split_and!; [apply heap_inv_mount|apply play_inv_fill| |].
  - by repeat constructor.
  - intros n b _ Hlen. simpl in Hlen. lia.
Qed.

Lemma run_legal (es : list event) (s : state) :
  Forall board_event es → run mount es = Some s → legal s.
Proof.
  intros Hes Hrun.
  apply (run_invariant legal board_event) with es mount; try done.
  - intros s0 e s1. apply step_legal.
  - apply legal_mount.
Qed.

(** In a legal history every snapshot with a successor has no complete
    triple, and the successor is that snapshot with one empty cell
    marked by the player whose turn it was. *)
Lemma legal_successor (s : state) (n : nat) (b b' : list jsval) :
  legal s → boards s !! n = Some b → boards s !! S n = Some b' →
  calculateWinner b = None
  ∧ ∃ i, (i < 9)%nat ∧ b !! i = Some Null
         ∧ b' = <[i := Str (turn (xIsNext_of (Z.of_nat n)))]> b.
Proof.
  intros (_ & (_ & Hsolid & Hchain) & Hnine & Hearly) Hb Hb'. split.
  - apply (Hearly n b Hb). by apply lookup_lt_Some in Hb'.
  - apply written_from_empty.
    + by apply Hchain.
    + by eapply (proj1 (Forall_lookup _ _) Hsolid).
    + by eapply (proj1 (Forall_lookup _ _) Hnine).
    + by eapply (proj1 (Forall_lookup _ _) Hnine).
Qed.

Lemma legal_predecessor (s : state) (n : nat) (b : list jsval) :
  boards s !! S n = Some b → ∃ b0, boards s !! n = Some b0.
Proof.
  intros Hb. apply lookup_lt_is_Some. apply lookup_lt_Some in Hb. lia.
Qed.

(** ** Counting marks *)

Lemma count_mark_cons (p : mark) (v : jsval) (b : list jsval) :
  count_mark p (v :: b)
  = ((if decide (v = Str p) then 1 else 0) + count_mark p b)%nat.
Proof. unfold count_mark. rewrite filter_cons. by case_decide. Qed.

Lemma count_mark_insert (p : mark) (b : list jsval) (i : nat) (v w : jsval) :
  b !! i = Some v →
  (count_mark p (<[i := w]> b) + (if decide (v = Str p) then 1 else 0)
   = count_mark p b + (if decide (w = Str p) then 1 else 0))%nat.
Proof.
  revert i. induction b as [|u b IH]; intros [|i] Hi; try done.
  - injection Hi as ->. change (<[0%nat := w]> (v :: b)) with (w :: b).
    rewrite !count_mark_cons. lia.
  - change (<[S i := w]> (u :: b)) with (u :: <[i := w]> b).
    rewrite !count_mark_cons. specialize (IH i Hi). lia.
Qed.

Lemma count_marks_le (b : list jsval) :
  (count_mark X b + count_mark O b ≤ length b)%nat.
Proof.
  induction b as [|v b IH]; [done|]. rewrite !count_mark_cons.
  cbn [length]. repeat case_decide; simplify_eq; lia.
Qed.

Lemma count_marks_full (b : list jsval) :
  every_Boolean b = true → Forall (λ v, v ≠ Undefined) b →
  (count_mark X b + count_mark O b = length b)%nat.
Proof.
  induction b as [|v b IH]; [done|]. intros He Hf.
  inversion Hf as [|? ? Hv Hb]; subst. unfold every_Boolean in *.
  simpl in He. apply andb_true_iff in He as [Hv' He].
  rewrite !count_mark_cons. specialize (IH He Hb). cbn [length].
  destruct v as [| |[|]]; try done; repeat case_decide; simplify_eq; lia.
Qed.

Lemma count_mark_three (p : mark) (squares : list jsval) (a b c : nat) :
  (a < b)%nat → (b < c)%nat →
  squares !! a = Some (Str p) →
  squares !! b = Some (Str p) →
  squares !! c = Some (Str p) →
  (3 ≤ count_mark p squares)%nat.
Proof.
  intros Hab Hbc Ha Hb Hc.
  pose proof (count_mark_insert p squares a (Str p) Null Ha) as H1.
  assert (<[a := Null]> squares !! b = Some (Str p)) as Hb'
    by (rewrite list_lookup_insert_ne by lia; done).
  pose proof (count_mark_insert p _ b (Str p) Null Hb') as H2.
  assert (<[b := Null]> (<[a := Null]> squares) !! c = Some (Str p)) as Hc'
    by (rewrite !list_lookup_insert_ne by lia; done).
  pose proof (count_mark_insert p _ c (Str p) Null Hc') as H3.
  rewrite decide_True in H1, H2, H3 by done.
  rewrite decide_False in H1, H2, H3 by done. lia.
Qed.

Lemma solid_nine_no_hole (b : list jsval) :
  solid b → length b = 9%nat → Forall (λ v, v ≠ Undefined) b.
Proof.
  intros Hsolid Hlen. apply Forall_lookup. intros i v Hv.
  destruct (Hsolid i) as (w & Hw & Hne); [apply lookup_lt_Some in Hv; lia|].
  congruence.
Qed.

Lemma legal_counts (s : state) (n : nat) (b : list jsval) :
  legal s → boards s !! n = Some b →
  (count_mark X b + count_mark O b = n)%nat
  ∧ count_mark X b = (count_mark O b + (if Nat.odd n then 1 else 0))%nat.
Proof.
  intros Hlegal. revert b. induction n as [|n IH]; intros b Hb.
  - destruct Hlegal as (_ & (H0 & _) & _).
    assert (b = Array_fill_null 9) as -> by congruence. done.
  - destruct (legal_predecessor _ _ _ Hb) as [b0 Hb0].
    destruct (legal_successor _ _ _ _ Hlegal Hb0 Hb)
      as (_ & i & _ & Hi & ->).
    destruct (IH b0 Hb0) as [Hsum Hdiff].
    set (q := turn (xIsNext_of (Z.of_nat n))).
    assert (q = if Nat.even n then X else O) as Hq.
    { unfold q. by rewrite xIsNext_of_even, (proj1 (Z_parity_of_nat n)). }
    clearbody q.
    pose proof (count_mark_insert X b0 i Null (Str q) Hi) as HX.
    pose proof (count_mark_insert O b0 i Null (Str q) Hi) as HO.
    rewrite (decide_False (P := Null = Str X)) in HX by done.
    rewrite (decide_False (P := Null = Str O)) in HO by done.
    rewrite Nat.odd_succ. rewrite <- Nat.negb_even in Hdiff.
    destruct (Nat.even n); subst q; cbn [negb] in Hdiff.
    + rewrite (decide_True (P := Str X = Str X)) in HX by done.
      rewrite (decide_False (P := Str X = Str O)) in HO by done. lia.
    + rewrite (decide_False (P := Str O = Str X)) in HX by done.
      rewrite (decide_True (P := Str O = Str O)) in HO by done. lia.
Qed.

Lemma EvaluateTerminal_Win_inv (b : list jsval) (p : mark) (l : list nat) :
  EvaluateTerminal b = Win p l →
  calculateWinner b = Some {| player := Str p; line := l |}.
Proof.
  unfold EvaluateTerminal.
  destruct (calculateWinner b) as [[pl ln]|] eqn:Hr.
  - destruct (scan_lines_player _ _ _ Hr) as [q Hq]. simpl in *. subst pl.
    simpl. by intros [= -> ->].
  - simpl. unfold isDraw_of. by destruct (_ && _).
Qed.

Lemma EvaluateTerminal_Draw_inv (b : list jsval) :
  EvaluateTerminal b = Draw →
  calculateWinner b = None ∧ every_Boolean b = true.
Proof.
  unfold EvaluateTerminal.
  destruct (calculateWinner b) as [[pl ln]|] eqn:Hr.
  - destruct (scan_lines_player _ _ _ Hr) as [q Hq]. simpl in *. by subst pl.
  - simpl. unfold isDraw_of. simpl. by destruct (every_Boolean b).
Qed.

Lemma count_marks_all (b : list jsval) :
  (count_mark X b + count_mark O b = length b)%nat → every_Boolean b = true.
Proof.
  induction b as [|v b IH]; [done|]. rewrite !count_mark_cons.
  cbn [length]. pose proof (count_marks_le b) as Hle.
  unfold every_Boolean in *. simpl.
  destruct v as [| |[|]]; repeat case_decide; simplify_eq;
    intros Hc; try lia; apply IH; lia.
Qed.

Lemma legal_board_length (s : state) (n : nat) (b : list jsval) :
  legal s → boards s !! n = Some b → length b = 9%nat ∧ solid b.
Proof.
  intros (_ & (_ & Hsolid & _) & Hnine & _) Hb. split.
  - by eapply (proj1 (Forall_lookup _ _) Hnine).
  - by eapply (proj1 (Forall_lookup _ _) Hsolid).
Qed.

(** In the history of a game played through the nine squares, snapshot
    [n] holds exactly [n] marks: as many X as O when [n] is even, one X
    more when [n] is odd.  So a history has at most ten snapshots. *)
Theorem snapshot_mark_counts (es : list event) (s : state) (n : nat)
    (b : list jsval) :
  Forall board_event es →
  run mount es = Some s →
  boards s !! n = Some b →
  (count_mark X b + count_mark O b = n)%nat
  ∧ count_mark X b = (count_mark O b + (if Nat.odd n then 1 else 0))%nat
  ∧ (n ≤ 9)%nat
  ∧ (length (history s) ≤ 10)%nat.
Proof.
  intros Hes Hrun Hb. pose proof (run_legal _ _ Hes Hrun) as Hlegal.
  destruct (legal_counts _ _ _ Hlegal Hb) as [Hsum Hdiff].
  destruct (legal_board_length _ _ _ Hlegal Hb) as [Hlen _].
  pose proof (count_marks_le b) as Hle. split_and!; [done|done|lia|].
  destruct (decide (length (history s) ≤ 10)%nat) as [|Hlong]; [done|].
  destruct (lookup_lt_is_Some_2 (boards s) 10) as [b' Hb'].
  { unfold boards. rewrite length_fmap. lia. }
  destruct (legal_counts _ _ _ Hlegal Hb') as [Hsum' _].
  destruct (legal_board_length _ _ _ Hlegal Hb') as [Hlen' _].
  pose proof (count_marks_le b'). lia.
Qed.

Lemma snapshot_mark_counts_witness :
  boards top_row_state !! 5%nat = Some top_row_board
  ∧ (count_mark X top_row_board + count_mark O top_row_board = 5)%nat
  ∧ count_mark X top_row_board
    = (count_mark O top_row_board + (if Nat.odd 5 then 1 else 0))%nat
  ∧ (5 ≤ 9)%nat
  ∧ (length (history top_row_state) ≤ 10)%nat.
Proof.
  split; [reflexivity|].
  apply (snapshot_mark_counts top_row_game top_row_state 5 top_row_board).
  - unfold top_row_game, clicks. simpl. repeat constructor; simpl; lia.
  - reflexivity.
  - reflexivity.
Defined.

(** A mark, once on the board, is on every later snapshot of the
    history: no handler erases or overwrites a mark. *)
Theorem marks_persist (es : list event) (s : state) (n m i : nat)
    (b b' : list jsval) (p : mark) :
  Forall board_event es →
  run mount es = Some s →
  (n ≤ m)%nat →
  boards s !! n = Some b →
  boards s !! m = Some b' →
  b !! i = Some (Str p) →
  b' !! i = Some (Str p).
Proof.
  intros Hes Hrun Hle Hb Hb' Hi.
  pose proof (run_legal _ _ Hes Hrun) as Hlegal.
  revert b' Hb'. induction Hle as [|m Hle IH]; intros b' Hb'.
  - congruence.
  - destruct (legal_predecessor _ _ _ Hb') as [b0 Hb0].
    destruct (legal_successor _ _ _ _ Hlegal Hb0 Hb')
      as (_ & j & _ & Hj & ->).
    specialize (IH b0 Hb0).
    rewrite list_lookup_insert_ne; [done|]. intros ->. congruence.
Qed.

Lemma marks_persist_witness :
  boards top_row_state !! 1%nat
  = Some [Str X; Null; Null; Null; Null; Null; Null; Null; Null]
  ∧ top_row_board !! 0%nat = Some (Str X).
Proof.
  split; [reflexivity|].
  apply (marks_persist top_row_game top_row_state 1 5 0
           [Str X; Null; Null; Null; Null; Null; Null; Null; Null]
           top_row_board X).
  - unfold top_row_game, clicks. simpl. repeat constructor; simpl; lia.
  - reflexivity.
  - lia.
  - reflexivity.
  - reflexivity.
  - reflexivity.
Defined.

(** Every snapshot but the last is a game in progress: it has no complete
    triple and still an empty cell.  So whenever the component shows a
    winner or a draw, the current move is the last snapshot. *)
Theorem only_last_snapshot_is_final (es : list event) (s : state) (n : nat)
    (b : list jsval) :
  Forall board_event es →
  run mount es = Some s →
  boards s !! n = Some b →
  (S n < length (history s))%nat →
  EvaluateTerminal b = NoResult
  ∧ calculateWinner b = None
  ∧ ∃ i, (i < 9)%nat ∧ b !! i = Some Null.
Proof.
  intros Hes Hrun Hb Hlt. pose proof (run_legal _ _ Hes Hrun) as Hlegal.
  destruct (lookup_lt_is_Some_2 (boards s) (S n)) as [b' Hb'].
  { unfold boards. by rewrite length_fmap. }
  destruct (legal_successor _ _ _ _ Hlegal Hb Hb') as (Hnone & i & Hi & Hnull & _).
  split_and!; [|done|by exists i].
  rewrite (EvaluateTerminal_no_line _ Hnone).
  by rewrite (every_Boolean_false _ _ Hnull).
Qed.

Lemma only_last_snapshot_is_final_witness :
  EvaluateTerminal second_move_board = NoResult
  ∧ calculateWinner second_move_board = None
  ∧ ∃ i, (i < 9)%nat ∧ second_move_board !! i = Some Null.
Proof.
  apply (only_last_snapshot_is_final top_row_game top_row_state 2).
  - unfold top_row_game, clicks. simpl. repeat constructor; simpl; lia.
  - reflexivity.
  - reflexivity.
  - simpl. lia.
Defined.

(** A win is always the work of the last move: a won snapshot [n] is the
    snapshot before it with one empty cell marked by the winner, that
    cell lies on the reported line, the winner is X when [n] is odd and O
    when it is even, and [n] is at least 5. *)
Theorem winner_made_last_move (es : list event) (s : state) (n : nat)
    (b : list jsval) (p : mark) (l : list nat) :
  Forall board_event es →
  run mount es = Some s →
  boards s !! n = Some b →
  EvaluateTerminal b = Win p l →
  ∃ k b0 i,
    n = S k
    ∧ boards s !! k = Some b0
    ∧ EvaluateTerminal b0 = NoResult
    ∧ b0 !! i = Some Null
    ∧ b = <[i := Str p]> b0
    ∧ i ∈ l
    ∧ p = (if Nat.odd n then X else O)
    ∧ (5 ≤ n)%nat.
Proof.
  intros Hes Hrun Hb Hwin. pose proof (run_legal _ _ Hes Hrun) as Hlegal.
  apply EvaluateTerminal_Win_inv in Hwin.
  destruct (calculateWinner_Some_inv _ _ Hwin) as
    (x & y & z & q & [= <- ->] & Hin & Hxy & Hyz & Hz & Hx & Hy & Hzz).
  destruct n as [|k].
  { destruct Hlegal as (_ & (H0 & _) & _).
    assert (b = Array_fill_null 9) as -> by congruence. done. }
  destruct (legal_predecessor _ _ _ Hb) as [b0 Hb0].
  destruct (legal_successor _ _ _ _ Hlegal Hb0 Hb)
    as (Hnone & i & Hi & Hnull & ->).
  set (t := turn (xIsNext_of (Z.of_nat k))) in *.
  assert (i ∈ [x; y; z]) as Hil.
  { destruct (decide (i ∈ [x; y; z])) as [|Hnot]; [done|]. exfalso.
    rewrite !not_elem_of_cons in Hnot. destruct Hnot as (? & ? & ? & _).
    rewrite list_lookup_insert_ne in Hx, Hy, Hzz by done.
    apply (proj1 (scan_lines_none b0 lines) Hnone (x, y, z) Hin).
    by exists p. }
  assert (t = p) as Ht.
  { pose proof (lookup_lt_Some _ _ _ Hnull) as Hlt.
    rewrite !elem_of_cons, elem_of_nil in Hil.
    destruct Hil as [->|[->|[->|[]]]];
      rewrite list_lookup_insert_eq in * by done; congruence. }
  assert (p = if Nat.odd (S k) then X else O) as Hp.
  { rewrite <- Ht. unfold t.
    rewrite xIsNext_of_even, (proj1 (Z_parity_of_nat k)), Nat.odd_succ.
    done. }
  clearbody t. subst t.
  exists k, b0, i. split_and!; try done.
  - rewrite (EvaluateTerminal_no_line _ Hnone).
    by rewrite (every_Boolean_false _ _ Hnull).
  - destruct (legal_counts _ _ _ Hlegal Hb) as [Hsum Hdiff].
    pose proof (count_mark_three p _ x y z Hxy Hyz Hx Hy Hzz) as H3.
    destruct (Nat.odd (S k)); subst p; lia.
Qed.

Lemma winner_made_last_move_witness :
  ∃ k b0 i,
    5%nat = S k
    ∧ boards top_row_state !! k = Some b0
    ∧ EvaluateTerminal b0 = NoResult
    ∧ b0 !! i = Some Null
    ∧ top_row_board = <[i := Str X]> b0
    ∧ i ∈ [0; 1; 2]%nat
    ∧ X = (if Nat.odd 5 then X else O)
    ∧ (5 ≤ 5)%nat.
Proof.
  apply (winner_made_last_move top_row_game top_row_state 5 top_row_board).
  - unfold top_row_game, clicks. simpl. repeat constructor; simpl; lia.
  - reflexivity.
  - reflexivity.
  - reflexivity.
Defined.

(** A draw is declared at move 9 only, and at move 9 the game is over,
    won or drawn. *)
Theorem draw_only_at_move_nine (es : list event) (s : state) (n : nat)
    (b : list jsval) :
  Forall board_event es →
  run mount es = Some s →
  boards s !! n = Some b →
  (EvaluateTerminal b = Draw → n = 9%nat)
  ∧ (n = 9%nat → EvaluateTerminal b ≠ NoResult).
Proof.
  intros Hes Hrun Hb. pose proof (run_legal _ _ Hes Hrun) as Hlegal.
  destruct (legal_counts _ _ _ Hlegal Hb) as [Hsum _].
  destruct (legal_board_length _ _ _ Hlegal Hb) as [Hlen Hsolid].
  split.
  - intros [_ He]%EvaluateTerminal_Draw_inv.
    pose proof (count_marks_full b He (solid_nine_no_hole b Hsolid Hlen)).
    lia.
  - intros -> Hno.
    assert (every_Boolean b = true) as He by (apply count_marks_all; lia).
    unfold EvaluateTerminal in Hno.
    destruct (calculateWinner b) as [[pl ln]|] eqn:Hr.
    + destruct (scan_lines_player _ _ _ Hr) as [q Hq]. simpl in *.
      by subst pl.
    + simpl in Hno. unfold isDraw_of in Hno. simpl in Hno.
      by rewrite He in Hno.
Qed.

Lemma draw_only_at_move_nine_witness :
  active drawn_state = Some full_board
  ∧ (EvaluateTerminal full_board = Draw → 9%nat = 9%nat)
  ∧ (9%nat = 9%nat → EvaluateTerminal full_board ≠ NoResult).
Proof.
  split; [reflexivity|].
  apply (draw_only_at_move_nine drawn_game drawn_state 9 full_board).
  - unfold drawn_game, clicks. simpl. repeat constructor; simpl; lia.
  - reflexivity.
  - reflexivity.
Defined.

(** ** What a render shows *)

(** Under coherent identities the values of a render are a function of
    the history and the current move. *)
Lemma render_view (s s1 : state) (v : view) :
  heap_inv s →
  render s = Some (v, s1) →
  ∃ cur,
    js_index (history s) (currentMove s) = Some cur
    ∧ v = {| xIsNext := xIsNext_of (currentMove s);
             currentSquares := cur;
             result := calculateWinner (elems cur);
             winner := winner_of (calculateWinner (elems cur));
             winningLine := winningLine_of (calculateWinner (elems cur));
             isDraw := isDraw_of (winner_of (calculateWinner (elems cur)))
                         (elems cur) |}.
Proof.
  intros Hheap Hr. destruct (render_heap_inv _ _ _ Hheap Hr) as [_ Hres].
  apply render_Some in Hr as
    (cur & cell & Hcur & _ & Hv & Hx & Hw & Hwl & Hd & _).
  exists cur. split; [done|]. destruct v as [x c r w wl d]. simpl in *.
  subst c. rewrite Hres in Hw, Hwl. rewrite Hw in Hd. congruence.
Qed.

Lemma render_view_eq (s s1 s' s1' : state) (v v' : view) :
  heap_inv s → heap_inv s' →
  history s' = history s → currentMove s' = currentMove s →
  render s = Some (v, s1) → render s' = Some (v', s1') →
  v' = v.
Proof.
  intros Hheap Hheap' Hh Hm Hr Hr'.
  destruct (render_view _ _ _ Hheap Hr) as (cur & Hcur & ->).
  destruct (render_view _ _ _ Hheap' Hr') as (cur' & Hcur' & ->).
  rewrite Hh, Hm in Hcur'. rewrite Hm.
  assert (cur' = cur) as -> by congruence. done.
Qed.

(** A winner and a winning line come together. *)
Lemma winner_iff_line (squares : list jsval) :
  truthy (winner_of (calculateWinner squares))
  = negb (length (winningLine_of (calculateWinner squares)) =? 0)%nat.
Proof.
  destruct (calculateWinner squares) as [r|] eqn:Hr; [|done].
  destruct (calculateWinner_Some_inv _ _ Hr) as (a & b & c & p & -> & _).
  done.
Qed.

Lemma elem_of_Board_squares (squares : list jsval) (wl : list nat)
    (x : bool) (sq : square) :
  sq ∈ grid_squares (Board squares wl x) ↔
  ∃ i, (i < 9)%nat ∧ sq = renderSquare squares wl i.
Proof.
  unfold Board. cbn [grid_squares]. rewrite list_elem_of_fmap. split.
  - intros (i & -> & Hi). exists i. split; [|done].
    apply elem_of_seq in Hi. lia.
  - intros (i & Hi & ->). exists i. split; [done|].
    apply elem_of_seq. lia.
Qed.

(** The [disabled] flag of a square is the guard of the click handler. *)
Lemma square_disabled_guard (s s1 : state) (v : view) (sq : square) :
  heap_inv s →
  render s = Some (v, s1) →
  sq ∈ grid_squares (scr_board (App_screen v s1)) →
  sq_disabled sq
  = truthy (winner v)
    || truthy (js_get (elems (currentSquares v)) (sq_onClick sq))
  ∧ (sq_onClick sq < 9)%nat
  ∧ sq_key sq = sq_onClick sq.
Proof.
  intros Hheap Hr (i & Hi & ->)%elem_of_Board_squares.
  destruct (render_view _ _ _ Hheap Hr) as (cur & Hcur & ->).
  cbn [winningLine currentSquares winner sq_disabled sq_onClick sq_key
       renderSquare].
  split_and!; try done. rewrite winner_iff_line. apply orb_comm.
Qed.






(** The status line names the winner exactly when the active board is
    won, says [Draw] exactly when it is drawn, and otherwise names as
    next player X on an even and O on an odd current move, the mark a
    click would write; the badge class follows the same three cases. *)
Theorem status_line (s s1 : state) (v : view) (b : list jsval) :
  heap_inv s →
  render s = Some (v, s1) →
  active s = Some b →
  scr_status (App_screen v s1)
  = match EvaluateTerminal b with
    | Win p _ => "Winner: " +:+ mark_text p
    | Draw => "Draw"
    | NoResult =>
        "Next player: "
        +:+ mark_text (if Z.even (currentMove s) then X else O)
    end
  ∧ scr_badge (App_screen v s1)
    = "status-badge "
      +:+ match EvaluateTerminal b with
          | Win _ _ => "win"
          | Draw => "draw"
          | NoResult => "next"
          end
  ∧ turn (xIsNext v) = (if Z.even (currentMove s) then X else O).
Proof.
  intros Hheap Hr Hact.
  destruct (render_view _ _ _ Hheap Hr) as (cur & Hcur & ->).
  apply active_Some in Hact as (cur' & Hcur' & <-).
  assert (cur' = cur) as -> by congruence.
  unfold App_screen, status_text, status_badge, EvaluateTerminal.
  cbn [scr_status scr_badge winner isDraw xIsNext].
  rewrite xIsNext_of_even.
  destruct (calculateWinner (elems cur)) as [[pl ln]|] eqn:Hres.
  - destruct (scan_lines_player _ _ _ Hres) as [q Hq]. simpl in Hq.
    subst pl. done.
  - simpl. unfold isDraw_of. simpl.
    by destruct (every_Boolean (elems cur)), (Z.even (currentMove s)).
Qed.

Lemma status_line_witness :
  ∃ v s1 v' s1' v'' s1'',
    render top_row_state = Some (v, s1)
    ∧ scr_status (App_screen v s1) = "Winner: X"
    ∧ scr_badge (App_screen v s1) = "status-badge win"
    ∧ render drawn_state = Some (v', s1')
    ∧ scr_status (App_screen v' s1') = "Draw"
    ∧ render five_moves_state = Some (v'', s1'')
    ∧ scr_status (App_screen v'' s1'') = "Next player: O".
Proof.
  eexists _, _, _, _, _, _.
  split; [reflexivity|].
  assert (heap_inv top_row_state) as H1
    by (apply reachable_game_inv; by exists top_row_game).
  assert (heap_inv drawn_state) as H2
    by (apply reachable_game_inv; by exists drawn_game).
  assert (heap_inv five_moves_state) as H3
    by (apply reachable_game_inv; by exists five_moves_game).
  destruct (status_line top_row_state _ _ top_row_board H1 eq_refl eq_refl)
    as (Ha & Hb & _).
  destruct (status_line drawn_state _ _ full_board H2 eq_refl eq_refl)
    as (Hc & _).
  destruct (status_line five_moves_state _ _
              [Str X; Str X; Null; Null; Str O; Null; Null; Str O; Str X]
              H3 eq_refl eq_refl) as (Hd & _).
  split_and!; [exact Ha|exact Hb|reflexivity|exact Hc|reflexivity|exact Hd].
Defined.

(** ** The move list *)

(** The button built for a move. *)
Lemma History_items (h : list array) (cm : Z) (asc : bool)
    (it : history_button) :
  it ∈ History h cm asc ↔
  ∃ move, (move < length h)%nat
    ∧ it = {| hb_key := move;
              hb_className :=
                "history-btn "
                +:+ (if bool_decide (Z.of_nat move = cm)
                     then "current" else "");
              hb_onClick := Z.of_nat move;
              hb_ariaCurrent :=
                if bool_decide (Z.of_nat move = cm)
                then Some "step" else None;
              hb_description :=
                if decide (move = 0%nat) then "Go to game start"
                else "Go to move #" +:+ pretty move |}.
Proof.
  unfold History. rewrite imap_seq_0.
  assert (∀ l : list history_button,
            it ∈ (if asc then l else reverse l) ↔ it ∈ l) as ->.
  { intros l. destruct asc; [done|apply elem_of_reverse]. }
  rewrite list_elem_of_fmap. split.
  - intros (move & -> & Hm%elem_of_seq). exists move. split; [lia|done].
  - intros (move & Hm & ->). exists move. split; [done|].
    apply elem_of_seq. lia.
Qed.

Lemma move_description_inj (k k' : nat) :
  (if decide (k = 0%nat) then "Go to game start"
   else "Go to move #" +:+ pretty k)
  = (if decide (k' = 0%nat) then "Go to game start"
     else "Go to move #" +:+ pretty k') →
  k = k'.
Proof.
  destruct (decide (k = 0%nat)) as [->|Hk],
    (decide (k' = 0%nat)) as [->|Hk']; intros H.
  - done.
  - cbv -[pretty] in H. discriminate H.
  - cbv -[pretty] in H. discriminate H.
  - apply String.app_inj in H. by apply (inj pretty) in H.
Qed.

(** The move list has one button per snapshot, in ascending or in
    descending order of move.  Each button jumps to its own move, which
    indexes a snapshot; the button of the current move, and only it, is
    marked as current; only move 0 reads [Go to game start]; and two
    buttons never carry the same text. *)
Theorem History_buttons (h : list array) (cm : Z) (asc : bool) :
  length (History h cm asc) = length h
  ∧ hb_key <$> History h cm asc
    = (if asc then seq 0 (length h) else reverse (seq 0 (length h)))
  ∧ ∀ it, it ∈ History h cm asc →
      hb_onClick it = Z.of_nat (hb_key it)
      ∧ 0 ≤ hb_onClick it < Z.of_nat (length h)
      ∧ (hb_ariaCurrent it = Some "step" ↔ hb_onClick it = cm)
      ∧ (hb_className it = "history-btn current" ↔ hb_onClick it = cm)
      ∧ (hb_description it = "Go to game start" ↔ hb_key it = 0%nat)
      ∧ ∀ it', it' ∈ History h cm asc →
               hb_description it' = hb_description it → it' = it.
Proof.
  split_and!.
  - unfold History. destruct asc; rewrite ?length_reverse, length_imap; done.
  - unfold History. rewrite imap_seq_0.
    destruct asc; rewrite <- ?fmap_reverse, <- list_fmap_compose;
      simpl; by rewrite list_fmap_id.
  - intros it (move & Hm & ->)%History_items. simpl.
    split_and!; [done|lia|lia| | | |].
    + case_bool_decide; split; done.
    + case_bool_decide; split; try done.
    + case_decide; split; done.
    + intros it' (move' & Hm' & ->)%History_items. simpl.
      by intros ->%move_description_inj.
Qed.

(** ** Screens that come back *)

Lemma App_screen_ext (v : view) (s s' : state) :
  history s' = history s → currentMove s' = currentMove s →
  isAscending s' = isAscending s →
  App_screen v s' = App_screen v s.
Proof. unfold App_screen. by intros -> -> ->. Qed.

(** A state with the same history and current move renders to the same
    values. *)
Lemma render_again (s s1 s' : state) (v : view) :
  heap_inv s → render s = Some (v, s1) →
  heap_inv s' → history s' = history s → currentMove s' = currentMove s →
  ∃ s1', render s' = Some (v, s1')
         ∧ history s1' = history s
         ∧ currentMove s1' = currentMove s
         ∧ isAscending s1' = isAscending s'.
Proof.
  intros Hheap Hr Hheap' Hh Hm.
  destruct (proj2 (render_is_Some s')) as [[v' s1'] Hr'].
  { rewrite Hh, Hm. apply render_is_Some. by eexists. }
  rewrite (render_view_eq _ _ _ _ _ _ Hheap Hheap' Hh Hm Hr Hr') in Hr'.
  exists s1'. destruct (render_frame _ _ _ Hr') as (-> & -> & -> & _).
  by rewrite Hh, Hm.
Qed.

Lemma History_negb (h : list array) (cm : Z) (asc : bool) :
  History h cm (negb asc) = reverse (History h cm asc).
Proof. unfold History. destruct asc; simpl; by rewrite ?reverse_involutive. Qed.

(** A click on the order toggle reverses the move list and changes
    nothing else on the screen but the label of the toggle; a second
    click brings back the screen as it was. *)
Theorem toggle_reverses_move_list (s s1 : state) (v : view) :
  heap_inv s →
  render s = Some (v, s1) →
  ∃ s2 v2 s3,
    step s ToggleClick = Some s2
    ∧ render s2 = Some (v2, s3)
    ∧ scr_history (App_screen v2 s3) = reverse (scr_history (App_screen v s1))
    ∧ scr_board (App_screen v2 s3) = scr_board (App_screen v s1)
    ∧ scr_status (App_screen v2 s3) = scr_status (App_screen v s1)
    ∧ scr_badge (App_screen v2 s3) = scr_badge (App_screen v s1)
    ∧ scr_toggle (App_screen v2 s3) ≠ scr_toggle (App_screen v s1)
    ∧ ∃ s4 v4 s5,
        step s2 ToggleClick = Some s4
        ∧ render s4 = Some (v4, s5)
        ∧ App_screen v4 s5 = App_screen v s1.
Proof.
  intros Hheap Hr.
  destruct (render_frame _ _ _ Hr) as (Hh1 & Hm1 & Ha1 & _).
  assert (step s ToggleClick = Some (toggleOrder s1)) as Hstep
    by (unfold step; by rewrite Hr).
  pose proof (step_heap_inv _ _ _ Hheap Hstep) as Hheap2.
  destruct (render_again s s1 (toggleOrder s1) v Hheap Hr Hheap2)
    as (s3 & Hr2 & Hh3 & Hm3 & Ha3); [done|done|].
  assert (step (toggleOrder s1) ToggleClick = Some (toggleOrder s3)) as Hstep2
    by (unfold step; by rewrite Hr2).
  pose proof (step_heap_inv _ _ _ Hheap2 Hstep2) as Hheap4.
  destruct (render_again s s1 (toggleOrder s3) v Hheap Hr Hheap4)
    as (s5 & Hr4 & Hh5 & Hm5 & Ha5); [done|done|].
  exists (toggleOrder s1), v, s3. split_and!; try done.
  - unfold App_screen. cbn [scr_history]. rewrite Hh3, Hm3, Ha3, Hh1, Hm1.
    apply History_negb.
  - unfold App_screen. cbn [scr_toggle]. rewrite Ha3. simpl.
    by destruct (isAscending s1).
  - exists (toggleOrder s3), v, s5. split_and!; [done|done|].
    apply App_screen_ext; [congruence|congruence|].
    rewrite Ha5. simpl. rewrite Ha3. simpl. by rewrite negb_involutive.
Qed.

Lemma toggle_reverses_move_list_witness :
  ∃ v s1 s2 v2 s3,
    render five_moves_state = Some (v, s1)
    ∧ step five_moves_state ToggleClick = Some s2
    ∧ render s2 = Some (v2, s3)
    ∧ hb_key <$> scr_history (App_screen v2 s3) = [5; 4; 3; 2; 1; 0]%nat
    ∧ scr_toggle (App_screen v2 s3) = "Descending"
    ∧ scr_history (App_screen v2 s3)
      = reverse (scr_history (App_screen v s1)).
Proof.
  eexists _, _.
  assert (heap_inv five_moves_state) as Hheap
    by (apply reachable_game_inv; by exists five_moves_game).
  destruct (toggle_reverses_move_list five_moves_state _ _ Hheap eq_refl)
    as (s2 & v2 & s3 & Hstep & Hr2 & Hrev & _).
  exists s2, v2, s3. split; [reflexivity|].
  vm_compute in Hstep. injection Hstep as <-.
  vm_compute in Hr2. injection Hr2 as <- <-.
  split_and!; [reflexivity|reflexivity|reflexivity|reflexivity|exact Hrev].
Defined.

(** Time travel loses nothing: after a jump to any snapshot and a jump
    back to the move shown before, the screen is the one shown before. *)
Theorem jump_round_trip (s s1 : state) (v : view) (move : Z) :
  heap_inv s →
  render s = Some (v, s1) →
  0 ≤ move < Z.of_nat (length (history s)) →
  ∃ s2 s3 v3 s4,
    step s (HistoryClick move) = Some s2
    ∧ currentMove s2 = move
    ∧ step s2 (HistoryClick (currentMove s)) = Some s3
    ∧ render s3 = Some (v3, s4)
    ∧ App_screen v3 s4 = App_screen v s1
    ∧ history s3 = history s
    ∧ currentMove s3 = currentMove s.
Proof.
  intros Hheap Hr Hmove.
  destruct (render_frame _ _ _ Hr) as (Hh1 & Hm1 & Ha1 & _).
  assert (step s (HistoryClick move) = Some (jumpTo s1 move)) as Hstep
    by (unfold step; by rewrite Hr).
  pose proof (step_heap_inv _ _ _ Hheap Hstep) as Hheap2.
  destruct (proj2 (render_is_Some (jumpTo s1 move))) as [[v2 s2'] Hr2].
  { simpl. rewrite Hh1. done. }
  destruct (render_frame _ _ _ Hr2) as (Hh2 & Hm2 & Ha2 & _).
  simpl in Hh2, Hm2, Ha2.
  assert (step (jumpTo s1 move) (HistoryClick (currentMove s))
          = Some (jumpTo s2' (currentMove s))) as Hstep2
    by (unfold step; by rewrite Hr2).
  pose proof (step_heap_inv _ _ _ Hheap2 Hstep2) as Hheap3.
  destruct (render_again s s1 (jumpTo s2' (currentMove s)) v Hheap Hr Hheap3)
    as (s4 & Hr3 & Hh4 & Hm4 & Ha4); [simpl; congruence|done|].
  exists (jumpTo s1 move), (jumpTo s2' (currentMove s)), v, s4.
  split_and!; try done.
  - apply App_screen_ext; [congruence|congruence|].
    rewrite Ha4. simpl. congruence.
  - simpl. congruence.
Qed.

Lemma jump_round_trip_witness :
  ∃ v s1 s2 s3 v3 s4,
    render top_row_state = Some (v, s1)
    ∧ step top_row_state (HistoryClick 2) = Some s2
    ∧ currentMove s2 = 2
    ∧ step s2 (HistoryClick (currentMove top_row_state)) = Some s3
    ∧ render s3 = Some (v3, s4)
    ∧ App_screen v3 s4 = App_screen v s1
    ∧ history s3 = history top_row_state
    ∧ currentMove s3 = currentMove top_row_state.
Proof.
  eexists _, _.
  assert (heap_inv top_row_state) as Hheap
    by (apply reachable_game_inv; by exists top_row_game).
  destruct (jump_round_trip top_row_state _ _ 2 Hheap eq_refl)
    as (s2 & s3 & v3 & s4 & H); [simpl; lia|].
  exists s2, s3, v3, s4. split; [reflexivity|exact H].
Defined.

(** After a restart the screen shows what the freshly mounted component
    shows: the same status line, the same nine empty enabled squares and
    a move list of the single entry for the start; only the order toggle
    keeps its position. *)
Theorem restart_shows_mounted_screen (s : state) :
  heap_inv s →
  ∃ v s1 v0 s0,
    render (resetGame s) = Some (v, s1)
    ∧ render mount = Some (v0, s0)
    ∧ scr_status (App_screen v s1) = scr_status (App_screen v0 s0)
    ∧ scr_badge (App_screen v s1) = scr_badge (App_screen v0 s0)
    ∧ scr_board (App_screen v s1) = scr_board (App_screen v0 s0)
    ∧ scr_history (App_screen v s1) = scr_history (App_screen v0 s0)
    ∧ scr_status (App_screen v s1) = "Next player: X"
    ∧ Forall (λ sq, sq_disabled sq = false ∧ sq_value sq = Null)
        (grid_squares (scr_board (App_screen v s1)))
    ∧ scr_toggle (App_screen v s1)
      = (if isAscending s then "Ascending" else "Descending").
Proof.
  intros Hheap.
  pose proof (handle_heap_inv
                (Build_view true (Build_array 0 []) None Null [] false)
                s RestartClick Hheap) as Hheap'.
  simpl in Hheap'.
  destruct (proj2 (render_is_Some (resetGame s))) as [[v s1] Hr];
    [simpl; lia|].
  destruct (render_view _ _ _ Hheap' Hr) as (cur & Hcur & ->).
  destruct (render_frame _ _ _ Hr) as (Hh & Hm & Ha & _).
  simpl in Hcur. injection Hcur as <-.
  eexists _, s1, _, _. split_and!; [done|reflexivity|..]; try done.
  - unfold App_screen. cbn [scr_history]. rewrite Hh, Hm, Ha. simpl.
    by destruct (isAscending s).
  - by repeat constructor.
  - unfold App_screen. cbn [scr_toggle]. by rewrite Ha.
Qed.

Lemma restart_shows_mounted_screen_witness :
  ∃ v s1 v0 s0,
    render (resetGame top_row_state) = Some (v, s1)
    ∧ render mount = Some (v0, s0)
    ∧ scr_status (App_screen v s1) = scr_status (App_screen v0 s0)
    ∧ scr_badge (App_screen v s1) = scr_badge (App_screen v0 s0)
    ∧ scr_board (App_screen v s1) = scr_board (App_screen v0 s0)
    ∧ scr_history (App_screen v s1) = scr_history (App_screen v0 s0)
    ∧ scr_status (App_screen v s1) = "Next player: X"
    ∧ Forall (λ sq, sq_disabled sq = false ∧ sq_value sq = Null)
        (grid_squares (scr_board (App_screen v s1)))
    ∧ scr_toggle (App_screen v s1)
      = (if isAscending top_row_state then "Ascending" else "Descending").
Proof.
  apply (restart_shows_mounted_screen top_row_state).
  apply reachable_game_inv. by exists top_row_game.
Defined.

(** ** The component never throws under the user's hands *)

Lemma offered_board_event (v : view) (s : state) (e : event) :
  offered (App_screen v s) e → board_event e.
Proof.
  destruct e as [i|move| |]; [|done|done|done].
  cbn [offered board_event].
  intros (sq & (j & Hj & ->)%elem_of_Board_squares & _ & <-). done.
Qed.

Lemma offered_jump_in_range (v : view) (s : state) (move : Z) :
  offered (App_screen v s) (HistoryClick move) →
  0 ≤ move < Z.of_nat (length (history s)).
Proof.
  cbn [offered App_screen scr_history].
  intros (it & (k & Hk & ->)%History_items & <-). simpl. lia.
Qed.

Lemma ui_reachable_inv (s : state) :
  ui_reachable s →
  0 ≤ currentMove s < Z.of_nat (length (history s))
  ∧ ∃ es, Forall board_event es ∧ run mount es = Some s.
Proof.
  induction 1 as [|s s1 v e Hui [Hrange (es & Hes & Hrun)] Hr Hoff].
  - split; [simpl; lia|]. by exists [].
  - assert (step s e = Some (handle v s1 e)) as Hstep
      by (unfold step; by rewrite Hr).
    split.
    + destruct (render_frame _ _ _ Hr) as (Hh & Hm & _).
      destruct e as [i|move| |].
      * destruct (step_click _ _ _ Hstep) as
          (v' & cur & s1' & Hr' & Hcur & _ & [[_ ->]|(_ & _ & Hh' & Hm' & _)]).
        -- destruct (render_frame _ _ _ Hr') as (-> & -> & _). done.
        -- rewrite Hh', Hm', length_app, length_take_le by lia.
           simpl. lia.
      * apply offered_jump_in_range in Hoff. simpl. by rewrite Hh in *.
      * simpl. lia.
      * simpl. by rewrite Hh, Hm.
    + exists (es ++ [e]). split.
      * apply Forall_app. split; [done|].
        repeat constructor. by eapply offered_board_event.
      * rewrite run_app, Hrun. simpl. by rewrite Hstep.
Qed.

(** Whatever the user clicks, in whatever order, the current move indexes
    a snapshot, so the next render succeeds and the next event is
    handled: the unchecked [jumpTo] is only ever called with the move of
    a button of the list.  The state is also one reached by clicks on the
    nine squares, so the history has at most ten snapshots. *)
Theorem ui_never_throws (s : state) :
  ui_reachable s →
  0 ≤ currentMove s < Z.of_nat (length (history s))
  ∧ is_Some (render s)
  ∧ (∀ e, is_Some (step s e))
  ∧ (length (history s) ≤ 10)%nat
  ∧ reachable s
  ∧ history_inv (boards s).
Proof.
  intros (Hrange & es & Hes & Hrun)%ui_reachable_inv.
  pose proof (run_legal _ _ Hes Hrun) as Hlegal.
  split_and!; [lia|lia|by apply render_is_Some| | |by exists es|].
  - intros e. by apply step_is_Some.
  - destruct (decide (length (history s) ≤ 10)%nat) as [|Hlong]; [done|].
    destruct (lookup_lt_is_Some_2 (boards s) 10) as [b Hb].
    { unfold boards. rewrite length_fmap. lia. }
    destruct (legal_counts _ _ _ Hlegal Hb) as [Hsum _].
    destruct (legal_board_length _ _ _ Hlegal Hb) as [Hlen _].
    pose proof (count_marks_le b). lia.
  - by apply (run_history_inv es).
Qed.

Lemma ui_never_throws_witness :
  boards centre_state
  = [ [Null; Null; Null; Null; Null; Null; Null; Null; Null];
      [Null; Null; Null; Null; Str X; Null; Null; Null; Null] ]
  ∧ 0 ≤ currentMove centre_state
        < Z.of_nat (length (history centre_state))
  ∧ is_Some (render centre_state)
  ∧ (∀ e, is_Some (step centre_state e))
  ∧ (length (history centre_state) ≤ 10)%nat
  ∧ reachable centre_state
  ∧ history_inv (boards centre_state).
Proof.
  split; [reflexivity|].
  apply (ui_never_throws centre_state).
  eassert (render mount = Some (_, _)) as Hr by reflexivity.
  apply (ui_event mount _ _ (SquareClick 4) ui_mount Hr).
  exists (renderSquare (Array_fill_null 9) [] 4). split_and!.
  - apply elem_of_Board_squares. exists 4%nat. split; [lia|reflexivity].
  - reflexivity.
  - reflexivity.
Defined.

(** ** A click on an enabled square *)

Lemma js_get_js_set (b : list jsval) (i : nat) (x : jsval) :
  js_get (js_set b i x) i = x.
Proof.
  unfold js_set, js_get. case_decide.
  - by rewrite list_lookup_insert_eq.
  - rewrite lookup_app_r by lia.
    rewrite lookup_app_r; rewrite length_replicate; [|lia].
    by replace (i - length b - (i - length b))%nat with 0%nat by lia.
Qed.

(** A click on a square the board shows enabled always takes effect: one
    snapshot is appended after the current one and becomes current, the
    next render shows the mover's mark in that square and disables it,
    and the turn passes to the other player. *)
Theorem enabled_click_shows_mark (s s1 : state) (v : view) (sq : square) :
  heap_inv s →
  render s = Some (v, s1) →
  sq ∈ grid_squares (scr_board (App_screen v s1)) →
  sq_disabled sq = false →
  ∃ s' v' s1',
    step s (SquareClick (sq_onClick sq)) = Some s'
    ∧ currentMove s' = currentMove s + 1
    ∧ length (history s') = S (S (Z.to_nat (currentMove s)))
    ∧ render s' = Some (v', s1')
    ∧ elems (currentSquares v')
      = js_set (elems (currentSquares v)) (sq_onClick sq)
          (Str (turn (xIsNext v)))
    ∧ xIsNext v' = negb (xIsNext v)
    ∧ ∀ sq', sq' ∈ grid_squares (scr_board (App_screen v' s1')) →
             sq_key sq' = sq_key sq →
             sq_value sq' = Str (turn (xIsNext v))
             ∧ sq_disabled sq' = true.
Proof.
  intros Hheap Hr Hsq Hdis.
  destruct (square_disabled_guard _ _ _ _ Hheap Hr Hsq)
    as (Hguard & Hlt & Hkey).
  assert (step s (SquareClick (sq_onClick sq))
          = Some (handleSquareClick v s1 (sq_onClick sq))) as Hstep
    by (unfold step; by rewrite Hr).
  destruct (step_click _ _ _ Hstep) as
    (v0 & cur & s0 & Hr0 & Hcur & Hv0 & Hcases).
  assert (v0 = v ∧ s0 = s1) as [-> ->] by (split; congruence).
  destruct Hcases as [[Hg _]|(_ & _ & Hh & Hm & _)].
  { rewrite Hv0 in Hguard. congruence. }
  set (s' := handleSquareClick v s1 (sq_onClick sq)) in *.
  pose proof (step_heap_inv _ _ _ Hheap Hstep) as Hheap'.
  apply js_index_Some in Hcur as [Hk Hl].
  pose proof (lookup_lt_Some _ _ _ Hl) as Hlen.
  assert (length (history s') = S (S (Z.to_nat (currentMove s)))) as Hlen'.
  { rewrite Hh, length_app, length_take_le by lia. simpl. lia. }
  destruct (proj2 (render_is_Some s')) as [[v' s1'] Hr']; [lia|].
  destruct (render_view _ _ _ Hheap' Hr') as (cur' & Hcur' & Hv').
  destruct (render_view _ _ _ Hheap Hr) as (cur0 & _ & Hv).
  assert (xIsNext v = xIsNext_of (currentMove s)) as Hx by (by subst v).
  assert (elems cur'
          = js_set (elems cur) (sq_onClick sq) (Str (turn (xIsNext v))))
    as Hnew.
  { apply js_index_Some in Hcur' as [_ Hl'].
    rewrite Hh, Hm in Hl'.
    replace (Z.to_nat (currentMove s + 1))
      with (S (Z.to_nat (currentMove s))) in Hl' by lia.
    rewrite lookup_app_r, length_take_le, Nat.sub_diag in Hl'
      by (rewrite ?length_take_le; lia).
    injection Hl' as <-. simpl. by rewrite Hx. }
  exists s', v', s1'. split_and!; try done.
  - subst v'. simpl. by rewrite Hnew, Hv0.
  - subst v'. cbn [xIsNext]. rewrite Hx, Hm, !xIsNext_of_even.
    rewrite Z.even_add. simpl.
    by destruct (Z.even (currentMove s)).
  - intros sq' (j & Hj & ->)%elem_of_Board_squares Hkey'.
    simpl in Hkey'. subst j. rewrite Hkey.
    cbn [sq_value sq_disabled renderSquare].
    assert (js_get (elems (currentSquares v')) (sq_onClick sq)
            = Str (turn (xIsNext v))) as ->
      by (subst v'; simpl; rewrite Hnew; apply js_get_js_set).
    done.
Qed.

Lemma enabled_click_shows_mark_witness :
  ∃ v s1 s' v' s1',
    render five_moves_state = Some (v, s1)
    ∧ step five_moves_state (SquareClick 2) = Some s'
    ∧ currentMove s' = 5 + 1
    ∧ render s' = Some (v', s1')
    ∧ elems (currentSquares v')
      = [Str X; Str X; Str O; Null; Str O; Null; Null; Str O; Str X]
    ∧ xIsNext v' = true.
Proof.
  eexists _, _.
  assert (heap_inv five_moves_state) as Hheap
    by (apply reachable_game_inv; by exists five_moves_game).
  destruct (enabled_click_shows_mark five_moves_state _ _
              (renderSquare
                 [Str X; Str X; Null; Null; Str O; Null; Null; Str O; Str X]
                 [] 2) Hheap eq_refl)
    as (s' & v' & s1' & Hstep & Hm & _ & Hr' & Hnew & Hx & _).
  - apply elem_of_Board_squares. exists 2%nat. split; [lia|reflexivity].
  - reflexivity.
  - exists s', v', s1'. split; [reflexivity|].
    split_and!; [exact Hstep|exact Hm|exact Hr'|exact Hnew|exact Hx].
Defined.
